(** * go-async: a batch of operations run concurrently under an errgroup

    A shallow embedding of [async.go] and the proofs of its properties.

    Definitions:
    - [Errors]: Go error values as the package builds and inspects them
      ([errors.New], [fmt.Errorf] with [%w], [errors.Is], the two sentinels
      of package [context]);
    - [Reflect]: the part of package [reflect] that [assignResult] uses,
      over an open universe of run-time types;
    - the package itself: the builder methods, [assignResult], the closure
      of [asyncTask], the errgroup and [Go];
    - [Demo]: the types and the batches of the package's tests.

    Goroutines are modelled by an interleaving semantics: the closure that
    [asyncTask] hands to the errgroup is cut at the points where it reads or
    writes shared state, and a schedule decides which goroutine, or which
    event of the environment (the timer of [WithTimeout], a cancellation of
    the caller's context), comes next.  [Go] takes the schedule as an
    argument and is total: [g.Wait()] lets every goroutine finish.  Every
    property of [Go] is stated for all schedules.

    Lemmas: the binder, the invariants of a run, the shapes of run that the
    properties are about (nothing fails, the context is done from the
    start, a batch of one task, a single failing task), then the properties
    themselves and their instances at the batches of the tests. *)

From Stdlib Require Import ZArith String List Bool Lia.
From stdpp Require Import gmap strings list fin_maps.

Local Open Scope string_scope.
Local Open Scope list_scope.

(* ===================================================================== *)
(** ** Errors *)
(* ===================================================================== *)

Module Errors.

(** A non-nil value of interface type [error].  The nil error is [None]
    in [option error]. *)
Inductive error :=
| errorString (s : string)
    (* errors.New(s), and fmt.Errorf whose format has no %w *)
| wrapError (msg : string) (err : error)
    (* fmt.Errorf with one %w: msg is the text, err is Unwrap() *)
| Canceled
    (* context.Canceled *)
| DeadlineExceeded
    (* context.DeadlineExceeded *).

#[export] Instance error_eq_dec : EqDecision error.
Proof. solve_decision. Defined.

(** The [Error()] method. *)
Definition Error (e : error) : string :=
  match e with
  | errorString s => s
  | wrapError msg _ => msg
  | Canceled => "context canceled"
  | DeadlineExceeded => "context deadline exceeded"
  end.

(** [fmt.Errorf(prefix + "%w", err)]. *)
Definition Errorf_w (prefix : string) (err : error) : error :=
  wrapError (prefix +:+ Error err) err.

(** [errors.Unwrap]. *)
Definition Unwrap (e : error) : option error :=
  match e with
  | wrapError _ err => Some err
  | _ => None
  end.

(** [errors.Is(err, target)] for non-nil arguments: [target] is met
    somewhere on the [Unwrap] chain of [err].  Errors are compared by
    content, an error value having no identity here: this is [errors.Is]
    when [target] is a sentinel of package [context] or the very value
    that was wrapped, which are its only uses below; two separate
    [errors.New] of one text, which [errors.Is] tells apart, are not. *)
Fixpoint Is (err target : error) : bool :=
  bool_decide (err = target) ||
  match err with
  | wrapError _ inner => Is inner target
  | _ => false
  end.

(** The first non-nil error of a sequence of returned errors. *)
Fixpoint first_error (l : list (option error)) : option error :=
  match l with
  | [] => None
  | Some e :: _ => Some e
  | None :: l' => first_error l'
  end.

End Errors.
Export Errors.

(* ===================================================================== *)
(** ** Reflection *)
(* ===================================================================== *)

Module Reflect.

(** [reflect.Kind]. *)
Inductive Kind :=
| Invalid | Bool | Int | Int8 | Int16 | Int32 | Int64
| Uint | Uint8 | Uint16 | Uint32 | Uint64 | Uintptr
| Float32 | Float64 | Complex64 | Complex128
| Array | Chan | Func | Interface | Map | Pointer | Slice
| String | Struct | UnsafePointer.

#[export] Instance Kind_eq_dec : EqDecision Kind.
Proof. solve_decision. Defined.

(** [Kind.String()], what [%v] prints for a kind. *)
Definition Kind_String (k : Kind) : string :=
  match k with
  | Invalid => "invalid" | Bool => "bool" | Int => "int" | Int8 => "int8"
  | Int16 => "int16" | Int32 => "int32" | Int64 => "int64"
  | Uint => "uint" | Uint8 => "uint8" | Uint16 => "uint16"
  | Uint32 => "uint32" | Uint64 => "uint64" | Uintptr => "uintptr"
  | Float32 => "float32" | Float64 => "float64"
  | Complex64 => "complex64" | Complex128 => "complex128"
  | Array => "array" | Chan => "chan" | Func => "func"
  | Interface => "interface" | Map => "map" | Pointer => "ptr"
  | Slice => "slice" | String => "string" | Struct => "struct"
  | UnsafePointer => "unsafe.Pointer"
  end.

(** Addresses of variables. *)
Definition addr := nat.

(** The run-time types of a program and the representation of its values.
    The universe is open (a program declares its own types), so the
    development is parametric in it; [AssignableTo V T] is
    [V.AssignableTo(T)] of package [reflect]. *)
Class Types := {
  rtype : Type;
  word : Type;
  Kind_of : rtype -> Kind;              (** [Type.Kind()] *)
  Elem_of : rtype -> rtype;             (** [Type.Elem()] of a pointer type *)
  AssignableTo : rtype -> rtype -> bool;
  String_of : rtype -> string;          (** [Type.String()], printed by [%T] *)
  pointer_of : word -> option addr;     (** a data word read as a pointer;
                                            [None] is the nil pointer *)
}.

Section Values.
Context `{Types}.

(** A value together with its dynamic type: what a non-nil interface
    holds and what [reflect.ValueOf] returns for it. *)
Record Value := mkValue { typ : rtype; ptr : word }.

(** A value of type [any]; [None] is the nil interface. *)
Definition any := option Value.

(** The variables of the program: each holds its current value, boxed
    with its dynamic type.  A variable of interface type that holds nil
    has no entry. *)
Local Abbreviation heap := (gmap addr Value).

(** [reflect.Value.Kind()]; the zero Value, which [reflect.ValueOf(nil)]
    returns, has kind [Invalid]. *)
Definition Value_Kind (v : any) : Kind :=
  match v with
  | None => Invalid
  | Some v => Kind_of (typ v)
  end.

(** [reflect.Value.IsNil()] on a value of pointer kind. *)
Definition IsNil (v : Value) : bool :=
  match pointer_of (ptr v) with
  | None => true
  | Some _ => false
  end.

(** What [%T] prints for an argument of type [any]. *)
Definition fmt_T (x : any) : string :=
  match x with
  | None => "<nil>"
  | Some v => String_of (typ v)
  end.

(** What [%T] prints for [destElem.Interface()], where [destElem] is the
    variable of type [t] at address [a]: the type of the variable, or,
    for a variable of interface type, the dynamic type of what it
    holds. *)
Definition fmt_T_Interface (t : rtype) (a : addr) (h : heap) : string :=
  match Kind_of t with
  | Interface => fmt_T (h !! a)
  | _ => String_of t
  end.

(** [Value.assignTo]: the value as it is stored in a variable of type
    [t] it is assignable to.  An interface keeps the dynamic type; any
    other variable holds the same data word under its own type. *)
Definition assignTo (v : Value) (t : rtype) : Value :=
  match Kind_of t with
  | Interface => v
  | _ => mkValue t (ptr v)
  end.

(** [destElem.Set(x)] for the variable of type [t] at address [a]. *)
Definition Set_ (t : rtype) (a : addr) (x : Value) (h : heap) : heap :=
  <[a := assignTo x t]> h.

End Values.

Arguments Value {_}.
Arguments any {_}.

Abbreviation heap := (gmap addr Value).

End Reflect.
Export Reflect.

(* ===================================================================== *)
(** ** Package async *)
(* ===================================================================== *)

Section Async.
Context `{Types}.

(** What a call of a Go function does to the variables of the program: it
    returns an error (or nil) and leaves a heap, or it panics. *)
Inductive result :=
| Returns (err : option error) (h : heap)
| Panics.

(** [type AsyncFunc func() (any, error)].  An operation is modelled by what
    it returns; what else it does (sleeping, input and output) is not part
    of the package, and it is taken not to touch the slots of the batch.
    The nil function value, whose call panics, is not represented. *)
Definition AsyncFunc := unit -> any * option error.

(** [type asyncHolder struct]; the field [fun] is a keyword here. *)
Record asyncHolder := mkHolder { dest : any; fun_ : AsyncFunc }.

(** [type async struct]; a [time.Duration] is a number of nanoseconds. *)
Record async := mkAsync { funcs : list asyncHolder; timeout : option Z }.

(** [RunInAsync]: a batch with an empty task queue and no timeout. *)
Definition RunInAsync : async := mkAsync [] None.

(** [Task]: [a.funcs = append(a.funcs, &asyncHolder{dest, asyncFunc})]. *)
Definition Task (dst : any) (asyncFunc : AsyncFunc) (a : async) : async :=
  mkAsync (funcs a ++ [mkHolder dst asyncFunc]) (timeout a).

(** [WithTimeout]: [a.timeout = &timeout]. *)
Definition WithTimeout (d : Z) (a : async) : async :=
  mkAsync (funcs a) (Some d).

(** *** assignResult *)

Definition msg_not_pointer (dst : any) : string :=
  "destination must be a pointer, received " +:+ fmt_T dst +:+
  " (kind: " +:+ Kind_String (Value_Kind dst) +:+ ")".

Definition msg_nil_pointer : string := "destination pointer cannot be nil".

Definition msg_mismatch (res : any) (t : rtype) (a : addr) (h : heap) : string :=
  "type mismatch: cannot assign " +:+ fmt_T res +:+ " to " +:+
  fmt_T_Interface t a h.

(** [assignResult(dest, res)].  The checks come in the order of the source:
    the kind of [dest], then its nil-ness, then the type of [res] against
    the type [dest] points to, and only then the write.  [resVal.Type()]
    panics on the zero Value, that is when [res] is the nil interface. *)
Definition assignResult (dst res : any) (h : heap) : result :=
  if negb (bool_decide (Value_Kind dst = Pointer)) then
    Returns (Some (errorString (msg_not_pointer dst))) h
  else
    match dst with
    | None => Returns (Some (errorString (msg_not_pointer dst))) h
    | Some val =>
        match pointer_of (ptr val) with
        | None => Returns (Some (errorString msg_nil_pointer)) h
        | Some a =>
            let destElemType := Elem_of (typ val) in
            match res with
            | None => Panics
            | Some resVal =>
                if negb (AssignableTo (typ resVal) destElemType) then
                  Returns (Some (errorString (msg_mismatch res destElemType a h))) h
                else
                  Returns None (Set_ destElemType a resVal h)
            end
        end
    end.

(** Whether [assignResult] rejects the pair: the three checks of the
    source, none of which looks at the variables of the program. *)
Definition rejects (dst : any) (r : Value) : bool :=
  match dst with
  | None => true
  | Some v =>
      negb (bool_decide (Kind_of (typ v) = Pointer))
      || IsNil v
      || negb (AssignableTo (typ r) (Elem_of (typ v)))
  end.

(** Whether the closure of [asyncTask] ends in a binding failure. *)
Definition bind_fails (dst res : any) : bool :=
  match dst, res with
  | Some _, Some r => rejects dst r
  | _, _ => false
  end.

(** *** The closure of asyncTask

    The function that [asyncTask] passes to [g.Go], cut where it touches
    shared state: the call of the operation, the [select] on [ctx.Done()],
    and the assignment followed by [return err]. *)

Definition msg_cancelled : string := "async operation was cancelled: ".
Definition msg_assign : string := "failed to assign result: ".

(** [select { case <-ctx.Done(): return fmt.Errorf(.., ctx.Err()); default: }]
    where [ctxErr] is [ctx.Err()] at that moment: the error returned on the
    first branch, or [None] when the default branch is taken. *)
Definition select_Done (ctxErr : option error) : option error :=
  match ctxErr with
  | Some c => Some (Errorf_w msg_cancelled c)
  | None => None
  end.

(** Lines 115 to 121: the guarded call of [assignResult] and [return err]. *)
Definition assign_and_return (dst res : any) (err : option error) (h : heap)
  : result :=
  if bool_decide (dst <> None) && bool_decide (res <> None) then
    match assignResult dst res h with
    | Returns (Some assignErr) h' => Returns (Some (Errorf_w msg_assign assignErr)) h'
    | Returns None h' => Returns err h'
    | Panics => Panics
    end
  else Returns err h.

(** The whole closure, run without interruption by a goroutine that reads
    [ctxErr] from the context at its check point. *)
Definition task_body (ctxErr : option error) (t : asyncHolder) (h : heap)
  : result :=
  let '(res, err) := fun_ t tt in
  match select_Done ctxErr with
  | Some e => Returns (Some e) h
  | None => assign_and_return (dest t) res err h
  end.

(** *** Goroutines, the errgroup and the context *)

(** Where a goroutine of the group stands. [seen] is what it read from
    [ctx.Err()] at its check point and [ret] what the closure returned. *)
Inductive goroutine :=
| Spawned
| Called (res : any) (err : option error)
| Selected (res : any) (err : option error)
| Returned (seen : option error) (ret : option error)
| Exited (seen : option error) (ret : option error).

(** The shared state of one run of [Go]. *)
Record state := mkState {
  mem : heap;                          (* the variables of the program *)
  ctxErr : option error;               (* ctx.Err() of the group's context *)
  timer : bool;                        (* the timer of WithTimeout is armed *)
  gErr : option error;                 (* g.err of the errgroup *)
  pool : list goroutine;               (* one goroutine per task *)
  order : list (nat * option error);   (* who left the group, in order, with
                                          what its closure returned *)
  crashed : bool                       (* a goroutine panicked *)
}.

(** What happens next. *)
Inductive event :=
| Run (i : nat)             (* goroutine i runs up to its next cut *)
| TimerFires                (* the deadline of WithTimeout passes *)
| ParentDone (e : error).   (* the caller's context is cancelled, with Err() = e *)

(** The context is cancelled at most once: the first cause stays. *)
Definition cancel_ctx (e : error) (c : option error) : option error :=
  match c with
  | Some c0 => Some c0
  | None => Some e
  end.

(** The wrapper of [errgroup.Group.Go] after the closure returned [ret]:
    [errOnce.Do] keeps the first non-nil error and cancels the group's
    context ([ctx.Err()] becomes [context.Canceled] unless the context is
    done already); then the goroutine leaves the wait group. *)
Definition errOnce (ret : option error) (st : state) : state :=
  match ret, gErr st with
  | Some e, None =>
      mkState (mem st) (cancel_ctx Canceled (ctxErr st)) (timer st) (Some e)
              (pool st) (order st) (crashed st)
  | _, _ => st
  end.

Definition leave_group (i : nat) (seen ret : option error) (st : state) : state :=
  let st' := errOnce ret st in
  mkState (mem st') (ctxErr st') (timer st') (gErr st')
          (<[i := Exited seen ret]> (pool st')) (order st' ++ [(i, ret)])
          (crashed st').

Definition with_ctx (c : option error) (st : state) : state :=
  mkState (mem st) c (timer st) (gErr st) (pool st) (order st) (crashed st).

Definition with_mem (h : heap) (st : state) : state :=
  mkState h (ctxErr st) (timer st) (gErr st) (pool st) (order st) (crashed st).

Definition crash (st : state) : state :=
  mkState (mem st) (ctxErr st) (timer st) (gErr st) (pool st) (order st) true.

Definition set_goroutine (i : nat) (g : goroutine) (st : state) : state :=
  mkState (mem st) (ctxErr st) (timer st) (gErr st) (<[i := g]> (pool st))
          (order st) (crashed st).

(** One step of goroutine [i] running task [t]. *)
Definition run_goroutine (i : nat) (t : asyncHolder) (g : goroutine) (st : state)
  : state :=
  match g with
  | Spawned =>
      let '(res, err) := fun_ t tt in
      set_goroutine i (Called res err) st
  | Called res err =>
      match select_Done (ctxErr st) with
      | Some e => set_goroutine i (Returned (ctxErr st) (Some e)) st
      | None => set_goroutine i (Selected res err) st
      end
  | Selected res err =>
      match assign_and_return (dest t) res err (mem st) with
      | Returns ret h' => set_goroutine i (Returned None ret) (with_mem h' st)
      | Panics => crash st
      end
  | Returned seen ret => leave_group i seen ret st
  | Exited _ _ => st
  end.

(** One event.  A panic ends the process; an event for a goroutine that
    does not exist, or a timer that was never armed, changes nothing. *)
Definition step (tasks : list asyncHolder) (ev : event) (st : state) : state :=
  if crashed st then st
  else
    match ev with
    | Run i =>
        match tasks !! i, pool st !! i with
        | Some t, Some g => run_goroutine i t g st
        | _, _ => st
        end
    | TimerFires =>
        if timer st then with_ctx (cancel_ctx DeadlineExceeded (ctxErr st)) st
        else st
    | ParentDone e => with_ctx (cancel_ctx e (ctxErr st)) st
    end.

Definition exec (tasks : list asyncHolder) (sched : list event) (st : state)
  : state :=
  fold_left (fun s ev => step tasks ev s) sched st.

(** *** The transitions of a run

    The same steps as a labelled relation, one rule per cut of the closure
    and per event of the environment; [step] never leaves it (lemma
    [step_trans]). *)

Inductive trans (tasks : list asyncHolder) (st : state) : event -> state -> Prop :=
| trans_idle ev :
    trans tasks st ev st
| trans_timer :
    timer st = true ->
    trans tasks st TimerFires (with_ctx (cancel_ctx DeadlineExceeded (ctxErr st)) st)
| trans_parent e :
    trans tasks st (ParentDone e) (with_ctx (cancel_ctx e (ctxErr st)) st)
| trans_call i t res err :
    tasks !! i = Some t -> pool st !! i = Some Spawned ->
    fun_ t tt = (res, err) ->
    trans tasks st (Run i) (set_goroutine i (Called res err) st)
| trans_done i res err c :
    pool st !! i = Some (Called res err) -> ctxErr st = Some c ->
    trans tasks st (Run i)
      (set_goroutine i (Returned (Some c) (Some (Errorf_w msg_cancelled c))) st)
| trans_default i res err :
    pool st !! i = Some (Called res err) -> ctxErr st = None ->
    trans tasks st (Run i) (set_goroutine i (Selected res err) st)
| trans_assign i t res err ret h' :
    tasks !! i = Some t -> pool st !! i = Some (Selected res err) ->
    assign_and_return (dest t) res err (mem st) = Returns ret h' ->
    trans tasks st (Run i) (set_goroutine i (Returned None ret) (with_mem h' st))
| trans_leave i seen ret :
    pool st !! i = Some (Returned seen ret) ->
    trans tasks st (Run i) (leave_group i seen ret st).

(** How far a goroutine has come. *)
Definition stage (g : goroutine) : nat :=
  match g with
  | Spawned => 0
  | Called _ _ => 1
  | Selected _ _ => 2
  | Returned _ _ => 3
  | Exited _ _ => 4
  end.

Definition stage_at (st : state) (i : nat) : nat :=
  match pool st !! i with
  | Some g => stage g
  | None => 0
  end.

(** What the closure of task [t] returns to the errgroup when it reads
    [seen] from the context at its check point. *)
Definition closure_returns (t : asyncHolder) (seen ret : option error) : Prop :=
  exists h h', task_body seen t h = Returns ret h'.

(** A goroutine agrees with the task it runs. *)
Definition follows (t : asyncHolder) (g : goroutine) : Prop :=
  match g with
  | Spawned => True
  | Called res err | Selected res err => fun_ t tt = (res, err)
  | Returned seen ret | Exited seen ret => closure_returns t seen ret
  end.

(** The states a run of the tasks goes through. *)
Record sound (tasks : list asyncHolder) (st : state) : Prop := mkSound {
  sound_alive : crashed st = false;
  sound_pool : length (pool st) = length tasks;
  sound_first : gErr st = first_error (map snd (order st));
  sound_follows : forall i t g,
      tasks !! i = Some t -> pool st !! i = Some g -> follows t g;
  sound_order : forall i ret,
      (i, ret) ∈ order st <-> exists seen, pool st !! i = Some (Exited seen ret)
}.

(** *** Go *)

(** The caller's context, as [Go] finds it: [Err()] is nil until the
    context is done. *)
Record Context := mkContext { Err : option error }.

(** [context.WithTimeout(ctx, d)]: the child is done at once when the parent
    is (with the parent's error), or when [d] is not positive (deadline
    exceeded); otherwise a timer is armed. *)
Definition WithTimeout_ctx (parent : option error) (d : Z) : option error * bool :=
  match parent with
  | Some e => (Some e, false)
  | None => if (d <=? 0)%Z then (Some DeadlineExceeded, false) else (None, true)
  end.

(** The state when [g.Wait()] is reached: the context derived (lines 71 to
    77) and one goroutine spawned per task (lines 79 to 81). *)
Definition start (a : async) (ctx : Context) (h : heap) : state :=
  let '(c, tm) :=
    match timeout a with
    | Some d => WithTimeout_ctx (Err ctx) d
    | None => (Err ctx, false)
    end in
  mkState h c tm None (replicate (length (funcs a)) Spawned) [] false.

(** [g.Wait()] returns when every goroutine has left: whatever the schedule
    leaves undone is run to completion, goroutine by goroutine. *)
Definition drain (n : nat) : list event :=
  flat_map (fun i => [Run i; Run i; Run i; Run i]) (seq 0 n).

Definition Go_state (a : async) (ctx : Context) (sched : list event) (h : heap)
  : state :=
  exec (funcs a) (sched ++ drain (length (funcs a))) (start a ctx h).

(** [Go(ctx)]: the error of [g.Wait()] and the variables afterwards. *)
Definition Go (a : async) (ctx : Context) (sched : list event) (h : heap)
  : result :=
  let st := Go_state a ctx sched h in
  if crashed st then Panics else Returns (gErr st) (mem st).

(** *** Vocabulary of the properties *)

(** The variable the destination of a task points to. *)
Definition slot (t : asyncHolder) : option addr :=
  match dest t with
  | Some v => pointer_of (ptr v)
  | None => None
  end.

(** What the closure of [t] stores, and in which variable, once it gets to
    the assignment. *)
Definition writes (t : asyncHolder) : option (addr * Value) :=
  match dest t, (fun_ t tt).1 with
  | Some v, Some r =>
      if rejects (Some v) r then None
      else match pointer_of (ptr v) with
           | Some a => Some (a, assignTo r (Elem_of (typ v)))
           | None => None
           end
  | _, _ => None
  end.

(** A task whose closure returns nil when it is not cancelled: the
    operation reports no error and the binding, if any, is accepted. *)
Definition quiet (t : asyncHolder) : Prop :=
  (fun_ t tt).2 = None /\ bind_fails (dest t) (fun_ t tt).1 = false.

Definition is_Run (ev : event) : bool :=
  match ev with
  | Run _ => true
  | _ => false
  end.

(** The context of the batch is never cancelled from outside: the caller's
    context is not done when [Go] is called and is not cancelled during the
    run, and the timer of a configured timeout does not fire. *)
Definition never_cancelled (a : async) (ctx : Context) (sched : list event) : Prop :=
  Err ctx = None /\
  (forall d, timeout a = Some d -> (0 < d)%Z) /\
  forallb is_Run sched = true.

(** The timer fires before any goroutine is back from its operation and
    before the caller cancels; a timeout that is not positive has expired
    when [Go] starts. *)
Definition expires_first (a : async) (ctx : Context) (sched : list event) : Prop :=
  Err ctx = None /\
  exists d, timeout a = Some d /\
    ((d <= 0)%Z \/
     exists rest, sched = TimerFires :: rest).

(** Goroutines of a run in which nothing fails and nothing is cancelled. *)
Definition calm_goroutine (t : asyncHolder) (g : goroutine) : Prop :=
  match g with
  | Spawned => True
  | Called res err | Selected res err => fun_ t tt = (res, err)
  | Returned seen ret | Exited seen ret => seen = None /\ ret = None
  end.

Record calm (tasks : list asyncHolder) (h0 : heap) (st : state) : Prop := mkCalm {
  calm_ctx : ctxErr st = None;
  calm_err : gErr st = None;
  calm_alive : crashed st = false;
  calm_len : length (pool st) = length tasks;
  calm_pool : forall i t g,
      tasks !! i = Some t -> pool st !! i = Some g -> calm_goroutine t g;
  calm_written : forall i t a x,
      tasks !! i = Some t -> writes t = Some (a, x) -> 3 <= stage_at st i ->
      mem st !! a = Some x;
  calm_frame : forall y,
      (forall t a x, t ∈ tasks -> writes t = Some (a, x) -> a <> y) ->
      mem st !! y = h0 !! y
}.

(** Goroutines of a run whose context is done, with [Err() = c], before any
    of them reaches its check point. *)
Definition aborted_goroutine (c : error) (g : goroutine) : Prop :=
  match g with
  | Spawned | Called _ _ => True
  | Selected _ _ => False
  | Returned seen ret | Exited seen ret =>
      seen = Some c /\ ret = Some (Errorf_w msg_cancelled c)
  end.

Record aborted (c : error) (h0 : heap) (st : state) : Prop := mkAborted {
  aborted_ctx : ctxErr st = Some c;
  aborted_mem : mem st = h0;
  aborted_pool : forall i g, pool st !! i = Some g -> aborted_goroutine c g;
  aborted_err : gErr st = None \/ gErr st = Some (Errorf_w msg_cancelled c)
}.

(** Goroutine [j] of a run in which task [k] alone fails, with the error
    [e] of its operation, and nothing is cancelled from outside: up to the
    moment the goroutine of [k] hands [e] to the errgroup. *)
Definition lone_goroutine (k : nat) (e : error) (j : nat) (t : asyncHolder)
  (g : goroutine) : Prop :=
  match g with
  | Spawned => True
  | Called res err | Selected res err => fun_ t tt = (res, err)
  | Returned seen ret =>
      seen = None /\ ret = (if decide (j = k) then Some e else None)
  | Exited seen ret => seen = None /\ ret = None /\ j <> k
  end.

Definition lone (tasks : list asyncHolder) (k : nat) (e : error) (st : state) : Prop :=
  crashed st = false /\ length (pool st) = length tasks /\
  ((gErr st = None /\ ctxErr st = None /\
    forall j t g, tasks !! j = Some t -> pool st !! j = Some g ->
                  lone_goroutine k e j t g) \/
   (gErr st = Some e /\ pool st !! k = Some (Exited None (Some e)))).

(** The states of a batch of one task [t] started on [h0] whose context is
    never cancelled from outside. *)
Definition solo (t : asyncHolder) (h0 : heap) (st : state) : Prop :=
  crashed st = false /\
  match pool st with
  | [g] =>
      match g with
      | Spawned =>
          ctxErr st = None /\ gErr st = None /\ mem st = h0
      | Called res err | Selected res err =>
          ctxErr st = None /\ gErr st = None /\ mem st = h0 /\
          fun_ t tt = (res, err)
      | Returned seen ret =>
          gErr st = None /\ task_body None t h0 = Returns ret (mem st)
      | Exited seen ret =>
          gErr st = ret /\ task_body None t h0 = Returns ret (mem st)
      end
  | _ => False
  end.

(** *** The builder as a chain of calls *)

(** One call of a builder method on the batch. *)
Inductive call :=
| CallTask (dst : any) (asyncFunc : AsyncFunc)
| CallWithTimeout (d : Z).

Definition apply_call (a : async) (c : call) : async :=
  match c with
  | CallTask dst asyncFunc => Task dst asyncFunc a
  | CallWithTimeout d => WithTimeout d a
  end.

(** [runner.RunInAsync().m1(..).m2(..)...]: the calls applied in order to a
    fresh batch. *)
Definition chain (calls : list call) : async :=
  fold_left apply_call calls RunInAsync.

Definition task_of (c : call) : option asyncHolder :=
  match c with
  | CallTask dst asyncFunc => Some (mkHolder dst asyncFunc)
  | CallWithTimeout _ => None
  end.

Definition timeout_of (c : call) : option Z :=
  match c with
  | CallTask _ _ => None
  | CallWithTimeout d => Some d
  end.

(** *** More vocabulary: what goroutines have seen and done *)

(** The goroutine took the default branch of the [select]: it is past its
    check point and found the context not cancelled. *)
Definition passed (g : goroutine) : bool :=
  match g with
  | Returned None _ | Exited None _ => true
  | _ => false
  end.

(** What a goroutine read from [ctx.Err()] on the cancellation branch. *)
Definition saw (g : goroutine) : option error :=
  match g with
  | Returned seen _ | Exited seen _ => seen
  | _ => None
  end.

Definition is_TimerFires (ev : event) : bool :=
  match ev with
  | TimerFires => true
  | _ => false
  end.

(** The task cannot end well: its operation returns an error or its
    binding is rejected. *)
Definition fails (t : asyncHolder) : Prop :=
  (fun_ t tt).2 <> None \/ bind_fails (dest t) (fun_ t tt).1 = true.

(** What an event of the environment makes of the context of batch [a]:
    the error that [ctx.Err()] takes if the context is not done yet. *)
Definition cause_of (a : async) (ev : event) : option error :=
  match ev with
  | Run _ => None
  | TimerFires => match timeout a with Some _ => Some DeadlineExceeded | None => None end
  | ParentDone c => Some c
  end.

Definition with_timer (b : bool) (st : state) : state :=
  mkState (mem st) (ctxErr st) b (gErr st) (pool st) (order st) (crashed st).

#[export] Instance event_eq_dec : EqDecision event.
Proof. solve_decision. Defined.

(** How many times goroutine [i] is given the processor in a schedule. *)
Definition turns (i : nat) (sched : list event) : nat :=
  count_occ event_eq_dec sched (Run i).

(** Every goroutine is past the [select]. *)
Definition checked (st : state) : Prop :=
  forall i g, pool st !! i = Some g -> 2 <= stage g.

(** Two states that differ at most in the context and the timer. *)
Definition alike (st1 st2 : state) : Prop :=
  mem st1 = mem st2 /\ gErr st1 = gErr st2 /\ pool st1 = pool st2 /\
  order st1 = order st2 /\ crashed st1 = crashed st2.

(** The writes of the goroutines that took the default branch are in
    memory. *)
Definition landed (tasks : list asyncHolder) (st : state) : Prop :=
  forall i t g x v,
    tasks !! i = Some t -> pool st !! i = Some g -> passed g = true ->
    writes t = Some (x, v) -> mem st !! x = Some v.

(** Every variable holds what it held at the start or what a task that
    targets it produced. *)
Definition provenance (tasks : list asyncHolder) (h0 : heap) (st : state) : Prop :=
  forall y,
    mem st !! y = h0 !! y \/
    exists t v, t ∈ tasks /\ writes t = Some (y, v) /\ mem st !! y = Some v.

(** The states of a run whose context is never cancelled from outside:
    only the errgroup cancels it, and only after it has recorded the error
    of a goroutine that took the default branch. *)
Record orderly (st : state) : Prop := mkOrderly {
  orderly_ctx : ctxErr st = None \/ ctxErr st = Some Canceled;
  orderly_cause : ctxErr st = None \/ is_Some (gErr st);
  orderly_saw : forall i g,
      pool st !! i = Some g ->
      saw g = None \/ (saw g = Some Canceled /\ ctxErr st = Some Canceled);
  orderly_err : forall e,
      gErr st = Some e -> exists k, pool st !! k = Some (Exited None (Some e))
}.

(** Before any goroutine has reached its check point nothing has been
    written or recorded. *)
Definition untouched (h0 : heap) (st : state) : Prop :=
  (mem st = h0 /\ gErr st = None) \/ exists i, 2 <= stage_at st i.

(** *** How the failure of one unit reaches the caller *)

(** The failure [E] of unit [k] surfaces through [Go], as far as the
    errgroup lets it: [Go] returns a non-nil error in any case; if the
    goroutine of [k] took the default branch at its check point, [E] is
    what its closure returned to the errgroup, and [Go] returns [E] when no
    goroutine returned an error before that one; [Go] returns [E] under
    every schedule when every other task succeeds and the context is never
    cancelled from outside. *)
Definition surfaces (a : async) (ctx : Context) (sched : list event) (h : heap)
  (k : nat) (E : error) : Prop :=
  let st := Go_state a ctx sched h in
  (exists e, Go a ctx sched h = Returns (Some e) (mem st)) /\
  (forall ret,
     pool st !! k = Some (Exited None ret) ->
     ret = Some E /\
     exists before after,
       order st = before ++ (k, Some E) :: after /\
       (first_error (map snd before) = None ->
        Go a ctx sched h = Returns (Some E) (mem st))) /\
  ((forall j t', j <> k -> funcs a !! j = Some t' -> quiet t') ->
   never_cancelled a ctx sched ->
   Go a ctx sched h = Returns (Some E) (mem st)).

(** No goroutine of the run found the context done at its check point. *)
Definition unseen (st : state) : Prop :=
  forall j g, pool st !! j = Some g -> saw g = None.

(** The variable [x] holds what it held in [h0], and the goroutine of task
    [k], if it took the default branch, returned [ret0]. *)
Definition anchored (k : nat) (x : addr) (h0 : heap) (ret0 : option error)
  (st : state) : Prop :=
  mem st !! x = h0 !! x /\
  forall ret,
    pool st !! k = Some (Returned None ret) \/
    pool st !! k = Some (Exited None ret) ->
    ret = ret0.

End Async.

Arguments errOnce {_} ret st : simpl never.
Arguments Go_state {_} a ctx sched h.
Arguments Go {_} a ctx sched h.

(* ===================================================================== *)
(** ** A concrete universe: the types of the package's tests *)
(* ===================================================================== *)

Module Demo.

(** [int], [string], [interface{}] and pointers to them. *)
Inductive gotype :=
| TInt
| TString
| TAny
| TPtr (elem : gotype).

#[export] Instance gotype_eq_dec : EqDecision gotype.
Proof. solve_decision. Defined.

Inductive data :=
| DInt (z : Z)
| DString (s : string)
| DPtr (p : option addr).

Fixpoint gotype_String (t : gotype) : string :=
  match t with
  | TInt => "int"
  | TString => "string"
  | TAny => "interface {}"
  | TPtr e => "*" +:+ gotype_String e
  end.

(** Among these types [V] is assignable to [T] when the two are identical
    or [T] is the empty interface. *)
#[export] Instance demo_types : Types := {|
  rtype := gotype;
  word := data;
  Kind_of t := match t with
               | TInt => Int | TString => String | TAny => Interface
               | TPtr _ => Pointer
               end;
  Elem_of t := match t with TPtr e => e | _ => t end;
  AssignableTo V T := bool_decide (V = T) || bool_decide (T = TAny);
  String_of := gotype_String;
  pointer_of w := match w with DPtr p => p | _ => None end
|}.

Definition int (z : Z) : Value := mkValue TInt (DInt z).
Definition str (s : string) : Value := mkValue TString (DString s).
(** [&x] for a variable [x] of type [t] at address [a]. *)
Definition ref (t : gotype) (a : addr) : Value := mkValue (TPtr t) (DPtr (Some a)).
(** The nil pointer to [t]. *)
Definition nilptr (t : gotype) : Value := mkValue (TPtr t) (DPtr None).

(** [var result int] at address 1 and [var text string] at address 2. *)
Definition vars : heap := <[1 := int 0]> (<[2 := str ""]> ∅).

Definition background : Context := mkContext None.

(** A context whose [cancel] has been called. *)
Definition cancelled : Context := mkContext (Some Canceled).

Definition returns (res : any) (err : option error) : AsyncFunc := fun _ => (res, err).

(** The batch of [TestAsyncBasicFunctionality]. *)
Definition basic : async :=
  Task (Some (ref TString 2)) (returns (Some (str "hello")) None)
    (Task (Some (ref TInt 1)) (returns (Some (int 42)) None) RunInAsync).

(** [TestAsyncWithError]. *)
Definition test_error : error := errorString "test error".
Definition with_error : async :=
  Task (Some (ref TInt 1)) (returns None (Some test_error)) RunInAsync.

(** [TestAsyncTypeCompatibility]: an [int] for a [string] slot. *)
Definition type_compat : async :=
  Task (Some (ref TString 2)) (returns (Some (int 42)) None) RunInAsync.

(** [TestAsyncNilPointer]: [var result *int] passed as destination. *)
Definition nil_pointer : async :=
  Task (Some (nilptr TInt)) (returns (Some (int 42)) None) RunInAsync.

(** [TestAsyncNonPointerDest]: [result] itself passed as destination. *)
Definition non_pointer : async :=
  Task (Some (int 0)) (returns (Some (int 42)) None) RunInAsync.

(** The destinations of the two tests above with an operation that
    produces nothing. *)
Definition nil_pointer_no_value : async :=
  Task (Some (nilptr TInt)) (returns None None) RunInAsync.
Definition non_pointer_no_value : async :=
  Task (Some (int 0)) (returns None None) RunInAsync.

(** [TestAsyncNilResult]. *)
Definition nil_result : async :=
  Task (Some (ref TInt 1)) (returns None None) RunInAsync.

(** [TestAsyncWithTimeout]: 50ms of timeout. *)
Definition with_timeout : async :=
  Task (Some (ref TInt 1)) (returns (Some (int 42)) None)
    (WithTimeout 50000000 RunInAsync).

(** A value together with an error. *)
Definition value_and_error : async :=
  Task (Some (ref TInt 1)) (returns (Some (int 42)) (Some test_error)) RunInAsync.


(** Two tasks that fail: the operation of the first returns an error, the
    second produces an [int] for a [string] slot. *)
Definition two_failures : async :=
  Task (Some (ref TString 2)) (returns (Some (int 42)) None)
    (Task (Some (ref TInt 1)) (returns None (Some test_error)) RunInAsync).

(** A task that succeeds and a task that fails, in this order. *)
Definition success_then_failure : async :=
  Task (Some (ref TString 2)) (returns None (Some test_error))
    (Task (Some (ref TInt 1)) (returns (Some (int 42)) None) RunInAsync).

(** An operation that fails with [context.DeadlineExceeded] of its own, in
    a batch without timeout. *)
Definition deadline_op : async :=
  Task (Some (ref TInt 1)) (returns None (Some DeadlineExceeded)) RunInAsync.

(** A task with a nil pointer as destination and a task that succeeds. *)
Definition nil_pointer_then_value : async :=
  Task (Some (ref TString 2)) (returns (Some (str "hello")) None)
    (Task (Some (nilptr TInt)) (returns (Some (int 42)) None) RunInAsync).

(** A task that succeeds and a task that produces an [int] for a [string]
    slot. *)
Definition value_then_mismatch : async :=
  Task (Some (ref TString 2)) (returns (Some (int 42)) None)
    (Task (Some (ref TInt 1)) (returns (Some (int 7)) None) RunInAsync).

(** A task that produces nothing and a task that succeeds. *)
Definition nil_then_value : async :=
  Task (Some (ref TString 2)) (returns (Some (str "hello")) None)
    (Task (Some (ref TInt 1)) (returns None None) RunInAsync).

(** A task that produces nothing and a task whose operation fails. *)
Definition nil_then_failure : async :=
  Task (Some (ref TString 2)) (returns None (Some test_error))
    (Task (Some (ref TInt 1)) (returns None None) RunInAsync).

End Demo.

(* ===================================================================== *)
(** ** The result slot binder *)
(* ===================================================================== *)

Section Binder.
Context `{Types}.
Implicit Types (dst res : any) (h : heap) (v r : Value) (a : addr).

Lemma assignResult_not_pointer dst res h :
  Value_Kind dst <> Pointer ->
  assignResult dst res h = Returns (Some (errorString (msg_not_pointer dst))) h.
Proof.
  intros Hk. unfold assignResult.
  rewrite bool_decide_eq_false_2 by exact Hk. reflexivity.
Qed.

Lemma assignResult_nil_pointer v res h :
  Kind_of (typ v) = Pointer -> pointer_of (ptr v) = None ->
  assignResult (Some v) res h = Returns (Some (errorString msg_nil_pointer)) h.
Proof.
  intros Hk Hp. unfold assignResult. cbn [Value_Kind].
  rewrite bool_decide_eq_true_2 by exact Hk. cbn. rewrite Hp. reflexivity.
Qed.

Lemma assignResult_mismatch v a r h :
  Kind_of (typ v) = Pointer -> pointer_of (ptr v) = Some a ->
  AssignableTo (typ r) (Elem_of (typ v)) = false ->
  assignResult (Some v) (Some r) h =
  Returns (Some (errorString (msg_mismatch (Some r) (Elem_of (typ v)) a h))) h.
Proof.
  intros Hk Hp Ha. unfold assignResult. cbn [Value_Kind].
  rewrite bool_decide_eq_true_2 by exact Hk. cbn. rewrite Hp, Ha. reflexivity.
Qed.

Lemma assignResult_ok v a r h :
  Kind_of (typ v) = Pointer -> pointer_of (ptr v) = Some a ->
  AssignableTo (typ r) (Elem_of (typ v)) = true ->
  assignResult (Some v) (Some r) h =
  Returns None (<[a := assignTo r (Elem_of (typ v))]> h).
Proof.
  intros Hk Hp Ha. unfold assignResult. cbn [Value_Kind].
  rewrite bool_decide_eq_true_2 by exact Hk. cbn. rewrite Hp, Ha. reflexivity.
Qed.

(** With a result at hand [assignResult] returns: it rejects the pair and
    leaves the heap alone, or accepts it and writes the slot. *)
Lemma assignResult_Some dst r h :
  (rejects dst r = true /\
   exists e, assignResult dst (Some r) h = Returns (Some e) h) \/
  (rejects dst r = false /\
   exists v a, dst = Some v /\ Kind_of (typ v) = Pointer /\
     pointer_of (ptr v) = Some a /\
     AssignableTo (typ r) (Elem_of (typ v)) = true /\
     assignResult dst (Some r) h =
     Returns None (<[a := assignTo r (Elem_of (typ v))]> h)).
Proof.
  destruct dst as [v|].
  2:{ left. split; [reflexivity|]. eexists. apply assignResult_not_pointer. discriminate. }
  unfold rejects, IsNil.
  destruct (decide (Kind_of (typ v) = Pointer)) as [Hk|Hk].
  2:{ left. rewrite bool_decide_eq_false_2 by exact Hk. split; [reflexivity|].
      eexists. apply assignResult_not_pointer. exact Hk. }
  rewrite bool_decide_eq_true_2 by exact Hk. cbn [negb orb].
  destruct (pointer_of (ptr v)) as [a|] eqn:Hp.
  2:{ left. split; [reflexivity|]. eexists. now apply assignResult_nil_pointer. }
  destruct (AssignableTo (typ r) (Elem_of (typ v))) eqn:Ha; cbn [negb orb].
  - right. split; [reflexivity|]. exists v, a. repeat split; try assumption.
    now apply assignResult_ok.
  - left. split; [reflexivity|]. eexists. apply assignResult_mismatch; eassumption.
Qed.

(** The guard [res != nil] of [asyncTask] keeps the panic of
    [resVal.Type()] out of reach. *)
Lemma assign_and_return_no_panic dst res err h :
  assign_and_return dst res err h <> Panics.
Proof.
  unfold assign_and_return.
  destruct dst as [v|], res as [r|]; cbn; try discriminate.
  destruct (assignResult_Some (Some v) r h) as [[_ [e ->]]|[_ (v' & a & _ & _ & _ & _ & ->)]];
    discriminate.
Qed.

Lemma assign_and_return_fails dst res err h :
  bind_fails dst res = true ->
  exists e, assignResult dst res h = Returns (Some e) h /\
            assign_and_return dst res err h = Returns (Some (Errorf_w msg_assign e)) h.
Proof.
  unfold bind_fails, assign_and_return.
  destruct dst as [v|], res as [r|]; try discriminate. intros Hr.
  destruct (assignResult_Some (Some v) r h) as [[_ [e He]]|[Hr' _]]; [|congruence].
  exists e. split; [exact He|]. cbn. rewrite He. reflexivity.
Qed.

(** When the binding does not fail the closure returns the error of the
    operation, whatever it is. *)
Lemma assign_and_return_passes dst res err h :
  bind_fails dst res = false ->
  exists h', assign_and_return dst res err h = Returns err h'.
Proof.
  unfold bind_fails, assign_and_return. intros Hr.
  destruct dst as [v|], res as [r|]; cbn; eauto.
  destruct (assignResult_Some (Some v) r h) as [[Hr' _]|[_ (v' & a & _ & _ & _ & _ & ->)]];
    [congruence | eauto].
Qed.

End Binder.

(* ===================================================================== *)
(** ** Runs of the group *)
(* ===================================================================== *)

Section Runs.
Context `{Types}.
Variable tasks : list asyncHolder.
Implicit Types (st : state) (sched : list event) (g : goroutine).

Lemma first_error_app (l1 l2 : list (option error)) :
  first_error (l1 ++ l2) =
  match first_error l1 with
  | Some e => Some e
  | None => first_error l2
  end.
Proof. induction l1 as [|[e|] l1 IH]; cbn; auto. Qed.

Lemma exec_app sched1 sched2 st :
  exec tasks (sched1 ++ sched2) st = exec tasks sched2 (exec tasks sched1 st).
Proof. apply fold_left_app. Qed.

Lemma exec_cons ev sched st :
  exec tasks (ev :: sched) st = exec tasks sched (step tasks ev st).
Proof. reflexivity. Qed.

(** Every event is one of the transitions; in particular no goroutine
    panics. *)
Lemma step_trans ev st : trans tasks st ev (step tasks ev st).
Proof.
  unfold step. destruct (crashed st) eqn:Hc; [constructor|].
  destruct ev as [i| |e].
  - destruct (tasks !! i) as [t|] eqn:Ht; [|constructor].
    destruct (pool st !! i) as [g|] eqn:Hg; [|constructor].
    destruct g as [|res err|res err|seen ret|seen ret]; cbn.
    + destruct (fun_ t tt) as [res err] eqn:Hf. eapply trans_call; eauto.
    + destruct (ctxErr st) as [c|] eqn:Hx; cbn.
      * eapply trans_done; eauto.
      * eapply trans_default; eauto.
    + destruct (assign_and_return (dest t) res err (mem st)) as [ret h'|] eqn:Ha.
      * eapply trans_assign; eauto.
      * exfalso. eapply assign_and_return_no_panic; eauto.
    + eapply trans_leave; eauto.
    + constructor.
  - destruct (timer st) eqn:Htm; [by apply trans_timer|constructor].
  - apply trans_parent.
Qed.

(** A property kept by every transition holds all along a run. *)
Lemma exec_invariant (P : state -> Prop) :
  (forall st ev st', P st -> trans tasks st ev st' -> P st') ->
  forall sched st, P st -> P (exec tasks sched st).
Proof.
  intros Hstep sched. induction sched as [|ev sched IH]; intros st HP; [exact HP|].
  rewrite exec_cons. apply IH. eapply Hstep; eauto using step_trans.
Qed.

Lemma exec_invariant_on (E : event -> bool) (P : state -> Prop) :
  (forall st ev st', E ev = true -> P st -> trans tasks st ev st' -> P st') ->
  forall sched st, forallb E sched = true -> P st -> P (exec tasks sched st).
Proof.
  intros Hstep sched. induction sched as [|ev sched IH]; intros st HE HP; [exact HP|].
  cbn in HE. apply andb_prop in HE as [Hev HE].
  rewrite exec_cons. apply IH; [exact HE|]. eapply Hstep; eauto using step_trans.
Qed.

Lemma lookup_set_goroutine i j g g' (l : list goroutine) :
  <[i := g]> l !! j = Some g' ->
  (j = i /\ g' = g /\ i < length l) \/ (j <> i /\ l !! j = Some g').
Proof.
  intros Hl. apply list_lookup_insert_Some in Hl.
  destruct Hl as [(-> & -> & Hlt)|[Hne Hl]]; [left|right]; auto.
Qed.

Lemma closure_returns_done t c :
  closure_returns t (Some c) (Some (Errorf_w msg_cancelled c)).
Proof.
  exists ∅, ∅. unfold task_body. destruct (fun_ t tt). reflexivity.
Qed.

Lemma closure_returns_default t res err ret h h' :
  fun_ t tt = (res, err) ->
  assign_and_return (dest t) res err h = Returns ret h' ->
  closure_returns t None ret.
Proof.
  intros Hf Ha. exists h, h'. unfold task_body. rewrite Hf. exact Ha.
Qed.

Lemma errOnce_pool ret st : pool (errOnce ret st) = pool st.
Proof. unfold errOnce. destruct ret, (gErr st); reflexivity. Qed.

Lemma errOnce_order ret st : order (errOnce ret st) = order st.
Proof. unfold errOnce. destruct ret, (gErr st); reflexivity. Qed.

Lemma errOnce_mem ret st : mem (errOnce ret st) = mem st.
Proof. unfold errOnce. destruct ret, (gErr st); reflexivity. Qed.

Lemma errOnce_crashed ret st : crashed (errOnce ret st) = crashed st.
Proof. unfold errOnce. destruct ret, (gErr st); reflexivity. Qed.

Lemma errOnce_timer ret st : timer (errOnce ret st) = timer st.
Proof. unfold errOnce. destruct ret, (gErr st); reflexivity. Qed.

(** [g.err] keeps the first non-nil error it is given. *)
Lemma errOnce_gErr ret st :
  gErr (errOnce ret st) = match gErr st with Some e0 => Some e0 | None => ret end.
Proof. unfold errOnce. destruct ret, (gErr st) eqn:E; cbn; congruence. Qed.

Lemma sound_trans st ev st' :
  sound tasks st -> trans tasks st ev st' -> sound tasks st'.
Proof.
  intros [Hal Hlen Hfst Hfol Hord] Htr.
  destruct Htr as [ev| |e|i t res err Ht Hg Hf|i res err c Hg Hc|i res err Hg Hc
                   |i t res err ret h' Ht Hg Ha|i seen ret Hg].
  - by constructor.
  - by constructor.
  - by constructor.
  - constructor; cbn; auto.
    + by rewrite length_insert.
    + intros j t' g' Ht' Hg'. apply lookup_set_goroutine in Hg'.
      destruct Hg' as [(-> & -> & _)|[_ Hg']]; [|eauto].
      cbn. congruence.
    + intros j ret. rewrite Hord. split; intros [seen Hs]; exists seen.
      * rewrite list_lookup_insert_ne; [done|]. intros ->. congruence.
      * apply lookup_set_goroutine in Hs. destruct Hs as [(_ & ? & _)|[_ ?]]; [done|auto].
  - constructor; cbn; auto.
    + by rewrite length_insert.
    + intros j t' g' Ht' Hg'. apply lookup_set_goroutine in Hg'.
      destruct Hg' as [(-> & -> & _)|[_ Hg']]; [|eauto].
      apply closure_returns_done.
    + intros j ret. rewrite Hord. split; intros [seen Hs]; exists seen.
      * rewrite list_lookup_insert_ne; [done|]. intros ->. congruence.
      * apply lookup_set_goroutine in Hs. destruct Hs as [(_ & ? & _)|[_ ?]]; [done|auto].
  - constructor; cbn; auto.
    + by rewrite length_insert.
    + intros j t' g' Ht' Hg'. apply lookup_set_goroutine in Hg'.
      destruct Hg' as [(-> & -> & _)|[_ Hg']]; [|eauto].
      apply (Hfol _ _ _ Ht' Hg).
    + intros j ret. rewrite Hord. split; intros [seen Hs]; exists seen.
      * rewrite list_lookup_insert_ne; [done|]. intros ->. congruence.
      * apply lookup_set_goroutine in Hs. destruct Hs as [(_ & ? & _)|[_ ?]]; [done|auto].
  - constructor; cbn; auto.
    + by rewrite length_insert.
    + intros j t' g' Ht' Hg'. apply lookup_set_goroutine in Hg'.
      destruct Hg' as [(-> & -> & _)|[_ Hg']]; [|eauto].
      assert (t' = t) as -> by congruence.
      eapply closure_returns_default; [exact (Hfol _ _ _ Ht Hg)|exact Ha].
    + intros j ret'. rewrite Hord. split; intros [seen Hs]; exists seen.
      * rewrite list_lookup_insert_ne; [done|]. intros ->. congruence.
      * apply lookup_set_goroutine in Hs. destruct Hs as [(_ & ? & _)|[_ ?]]; [done|auto].
  - assert (Hi : i < length (pool st)) by (eapply lookup_lt_Some; eauto).
    unfold leave_group.
    constructor; cbn; rewrite ?errOnce_pool, ?errOnce_order, ?errOnce_crashed.
    + exact Hal.
    + by rewrite length_insert.
    + rewrite errOnce_gErr, map_app, first_error_app, <- Hfst.
      destruct (gErr st), ret; reflexivity.
    + intros j t' g' Ht' Hg'. apply lookup_set_goroutine in Hg'.
      destruct Hg' as [(-> & -> & _)|[_ Hg']]; [|eauto].
      apply (Hfol _ _ _ Ht' Hg).
    + intros j ret'. rewrite elem_of_app, list_elem_of_singleton.
      split.
      * intros [Hin|Heq].
        -- apply Hord in Hin as [s Hs]. exists s.
           rewrite list_lookup_insert_ne; [done|]. intros ->. congruence.
        -- injection Heq as -> ->. exists seen. by apply list_lookup_insert_eq.
      * intros [s Hs]. apply lookup_set_goroutine in Hs.
        destruct Hs as [(-> & Hs & _)|[_ Hs]].
        -- right. congruence.
        -- left. apply Hord. eauto.
Qed.

Lemma sound_exec sched st : sound tasks st -> sound tasks (exec tasks sched st).
Proof. apply exec_invariant. intros ? ? ?. apply sound_trans. Qed.

(** *** Every goroutine leaves the group *)

Lemma stage_at_le st i : stage_at st i <= 4.
Proof. unfold stage_at. destruct (pool st !! i) as [[]|]; cbn; lia. Qed.

Lemma stage_at_set i j g st :
  stage_at (set_goroutine j g st) i =
  if decide (i = j) then (if decide (j < length (pool st)) then stage g else 0)
  else stage_at st i.
Proof.
  unfold stage_at. cbn. destruct (decide (i = j)) as [->|Hne].
  - destruct (decide (j < length (pool st))) as [Hlt|Hge].
    + by rewrite list_lookup_insert_eq.
    + rewrite list_insert_ge by lia. rewrite lookup_ge_None_2 by lia. done.
  - by rewrite list_lookup_insert_ne.
Qed.

Lemma stage_at_Some st i g : pool st !! i = Some g -> stage_at st i = stage g.
Proof. unfold stage_at. by intros ->. Qed.

Lemma stage_trans st ev st' i :
  trans tasks st ev st' -> stage_at st i <= stage_at st' i.
Proof.
  intros Htr.
  destruct Htr as [ev| |e|j t res err Ht Hg Hf|j res err c Hg Hc|j res err Hg Hc
                   |j t res err ret h' Ht Hg Ha|j seen ret Hg];
    try (unfold stage_at; cbn; lia);
    pose proof (lookup_lt_Some _ _ _ Hg) as Hlt.
  1-3: rewrite stage_at_set; destruct (decide (i = j)) as [->|]; [|lia];
       rewrite decide_True by done; rewrite (stage_at_Some _ _ _ Hg); cbn; lia.
  - change (stage_at st i <= stage_at (set_goroutine j (Returned None ret) (with_mem h' st)) i).
    rewrite stage_at_set. cbn. destruct (decide (i = j)) as [->|]; [|unfold stage_at; cbn; lia].
    rewrite decide_True by done. rewrite (stage_at_Some _ _ _ Hg). cbn. lia.
  - unfold stage_at, leave_group. cbn. rewrite errOnce_pool.
    destruct (decide (i = j)) as [->|].
    + rewrite list_lookup_insert_eq by done. rewrite Hg. cbn. lia.
    + by rewrite list_lookup_insert_ne.
Qed.

Lemma stage_exec sched st i : stage_at st i <= stage_at (exec tasks sched st) i.
Proof.
  revert st. induction sched as [|ev sched IH]; intros st; [done|].
  rewrite exec_cons. etrans; [|apply IH]. eapply stage_trans, step_trans.
Qed.

(** A goroutine that is given the processor moves on, until it has left. *)
Lemma stage_run st i :
  sound tasks st -> i < length tasks ->
  Nat.min 4 (S (stage_at st i)) <= stage_at (step tasks (Run i) st) i.
Proof.
  intros [Hal Hlen _ _ _] Hi. unfold step. rewrite Hal.
  destruct (lookup_lt_is_Some_2 tasks i Hi) as [t Ht]. rewrite Ht.
  assert (Hi' : i < length (pool st)) by lia.
  destruct (lookup_lt_is_Some_2 (pool st) i Hi') as [g Hg]. rewrite Hg.
  rewrite (stage_at_Some _ _ _ Hg).
  destruct g as [|res err|res err|seen ret|seen ret]; cbn [run_goroutine stage].
  - destruct (fun_ t tt) as [res err]. rewrite stage_at_set, !decide_True by done. cbn. lia.
  - destruct (select_Done (ctxErr st)); rewrite stage_at_set, !decide_True by done; cbn; lia.
  - destruct (assign_and_return (dest t) res err (mem st)) as [ret h'|] eqn:Ha.
    + rewrite stage_at_set, !decide_True by done. cbn. lia.
    + exfalso. eapply assign_and_return_no_panic; eauto.
  - unfold stage_at, leave_group. cbn. rewrite errOnce_pool.
    rewrite list_lookup_insert_eq by done. cbn. lia.
  - rewrite (stage_at_Some _ _ _ Hg). cbn. lia.
Qed.

Lemma drain_S n : drain (S n) = drain n ++ [Run n; Run n; Run n; Run n].
Proof. unfold drain. rewrite seq_S, flat_map_app. cbn. reflexivity. Qed.

Lemma drain_runs n : forallb is_Run (drain n) = true.
Proof.
  induction n as [|n IH]; [reflexivity|].
  rewrite drain_S, forallb_app, IH. reflexivity.
Qed.

Lemma drain_exits n st i :
  sound tasks st -> n <= length tasks -> i < n ->
  stage_at (exec tasks (drain n) st) i = 4.
Proof.
  intros Hs. induction n as [|n IH]; intros Hn Hi; [lia|].
  rewrite drain_S, exec_app.
  set (st1 := exec tasks (drain n) st).
  assert (Hs1 : sound tasks st1) by (apply sound_exec, Hs).
  destruct (decide (i = n)) as [->|Hne].
  - pose proof (stage_at_le (exec tasks [Run n; Run n; Run n; Run n] st1) n) as Hle.
    cbn.
    set (s1 := step tasks (Run n) st1).
    set (s2 := step tasks (Run n) s1).
    set (s3 := step tasks (Run n) s2).
    assert (Hs2 : sound tasks s1) by (eapply sound_trans; [exact Hs1|apply step_trans]).
    assert (Hs3 : sound tasks s2) by (eapply sound_trans; [exact Hs2|apply step_trans]).
    assert (Hs4 : sound tasks s3) by (eapply sound_trans; [exact Hs3|apply step_trans]).
    pose proof (stage_run st1 n Hs1 ltac:(lia)) as H1.
    pose proof (stage_run s1 n Hs2 ltac:(lia)) as H2.
    pose proof (stage_run s2 n Hs3 ltac:(lia)) as H3.
    pose proof (stage_run s3 n Hs4 ltac:(lia)) as H4.
    fold s1 in H1. fold s2 in H2. fold s3 in H3.
    cbn in Hle. fold s1 s2 s3 in Hle. lia.
  - pose proof (stage_exec [Run n; Run n; Run n; Run n] st1 i) as Hmono.
    pose proof (stage_at_le (exec tasks [Run n; Run n; Run n; Run n] st1) i) as Hle.
    assert (stage_at st1 i = 4) by (apply IH; lia). lia.
Qed.

Lemma stage_4_exited st i :
  stage_at st i = 4 -> exists seen ret, pool st !! i = Some (Exited seen ret).
Proof.
  unfold stage_at. destruct (pool st !! i) as [[]|]; cbn; try discriminate. eauto.
Qed.

(** At the end of a schedule followed by [drain], every task's goroutine
    has left the group, with what its closure returned on record. *)
Lemma exec_drain_exited sched st i t :
  sound tasks st -> tasks !! i = Some t ->
  let st' := exec tasks (sched ++ drain (length tasks)) st in
  exists seen ret,
    pool st' !! i = Some (Exited seen ret) /\
    closure_returns t seen ret /\ (i, ret) ∈ order st'.
Proof.
  intros Hs Ht st'.
  assert (Hs' : sound tasks st') by (apply sound_exec, Hs).
  assert (Hi : i < length tasks) by (eapply lookup_lt_Some; eauto).
  destruct (stage_4_exited st' i) as (seen & ret & Hg).
  { subst st'. rewrite exec_app. apply drain_exits; [apply sound_exec, Hs|lia|exact Hi]. }
  exists seen, ret. split; [exact Hg|]. split.
  - exact (sound_follows _ _ Hs' _ _ _ Ht Hg).
  - apply (sound_order _ _ Hs'). eauto.
Qed.

End Runs.

(* ===================================================================== *)
(** ** Go *)
(* ===================================================================== *)

Section GoFacts.
Context `{Types}.
Implicit Types (a : async) (ctx : Context) (sched : list event) (h : heap).
Implicit Types (st : state) (t : asyncHolder).

Lemma start_pool a ctx h :
  pool (start a ctx h) = replicate (length (funcs a)) Spawned.
Proof. unfold start. by destruct (match timeout a with Some _ => _ | None => _ end). Qed.

Lemma start_mem a ctx h : mem (start a ctx h) = h.
Proof. unfold start. by destruct (match timeout a with Some _ => _ | None => _ end). Qed.

Lemma start_gErr a ctx h : gErr (start a ctx h) = None.
Proof. unfold start. by destruct (match timeout a with Some _ => _ | None => _ end). Qed.

Lemma start_order a ctx h : order (start a ctx h) = [].
Proof. unfold start. by destruct (match timeout a with Some _ => _ | None => _ end). Qed.

Lemma start_crashed a ctx h : crashed (start a ctx h) = false.
Proof. unfold start. by destruct (match timeout a with Some _ => _ | None => _ end). Qed.

Lemma start_ctxErr a ctx h :
  ctxErr (start a ctx h) =
  match timeout a with
  | Some d => (WithTimeout_ctx (Err ctx) d).1
  | None => Err ctx
  end.
Proof. unfold start. destruct (timeout a) as [d|]; [|done]. by destruct (WithTimeout_ctx _ _). Qed.

Lemma start_sound a ctx h : sound (funcs a) (start a ctx h).
Proof.
  constructor.
  - apply start_crashed.
  - by rewrite start_pool, length_replicate.
  - by rewrite start_gErr, start_order.
  - intros i t g _. rewrite start_pool. intros [-> _]%lookup_replicate. exact I.
  - intros i ret. rewrite start_order, start_pool. split.
    + intros Hin. by apply elem_of_nil in Hin.
    + intros [seen [Hs _]%lookup_replicate]. discriminate.
Qed.

Lemma Go_state_sound a ctx sched h : sound (funcs a) (Go_state a ctx sched h).
Proof. apply sound_exec, start_sound. Qed.

(** [Go] returns: no goroutine panics, and the error is the one the
    errgroup kept, which is the first that a goroutine returned. *)
Lemma Go_returns a ctx sched h :
  Go a ctx sched h =
  Returns (first_error (map snd (order (Go_state a ctx sched h))))
          (mem (Go_state a ctx sched h)).
Proof.
  unfold Go. pose proof (Go_state_sound a ctx sched h) as Hs.
  rewrite (sound_alive _ _ Hs), (sound_first _ _ Hs). reflexivity.
Qed.

(** When [Go] returns every goroutine has left the group. *)
Lemma Go_exited a ctx sched h i t :
  funcs a !! i = Some t ->
  exists seen ret,
    pool (Go_state a ctx sched h) !! i = Some (Exited seen ret) /\
    closure_returns t seen ret /\
    (i, ret) ∈ order (Go_state a ctx sched h).
Proof. intros Ht. apply exec_drain_exited; [apply start_sound|exact Ht]. Qed.

Lemma first_error_elem (l : list (nat * option error)) i e :
  (i, Some e) ∈ l -> exists e', first_error (map snd l) = Some e'.
Proof.
  induction l as [|[j [e'|]] l IH]; intros Hin.
  - by apply elem_of_nil in Hin.
  - cbn. eauto.
  - apply elem_of_cons in Hin as [Heq|Hin]; [discriminate|]. cbn. auto.
Qed.

Lemma first_error_none (l : list (nat * option error)) :
  (forall i ret, (i, ret) ∈ l -> ret = None) -> first_error (map snd l) = None.
Proof.
  induction l as [|[j [e'|]] l IH]; intros Hall; [done| |].
  - specialize (Hall j (Some e') ltac:(left)). discriminate.
  - cbn. apply IH. intros i ret Hin. eapply Hall. right. exact Hin.
Qed.

(** What the closure does to the variables: nothing, or the one write
    described by [writes]. *)
Lemma assign_and_return_writes t res err h ret h' :
  fun_ t tt = (res, err) ->
  assign_and_return (dest t) res err h = Returns ret h' ->
  h' = match writes t with
       | Some (a, x) => <[a := x]> h
       | None => h
       end.
Proof.
  intros Hf. unfold writes, assign_and_return. rewrite Hf. cbn [fst].
  destruct (dest t) as [v|], res as [r|]; try (cbn; intros [= _ <-]; reflexivity).
  destruct (assignResult_Some (Some v) r h)
    as [[-> [e ->]]|[-> (v' & a & [= <-] & _ & Hp & _ & ->)]].
  - cbn. intros [= _ <-]. reflexivity.
  - rewrite Hp. cbn. intros [= _ <-]. reflexivity.
Qed.

Lemma quiet_assign t res err h ret h' :
  quiet t -> fun_ t tt = (res, err) ->
  assign_and_return (dest t) res err h = Returns ret h' -> ret = None.
Proof.
  intros [Herr Hbind] Hf Ha.
  rewrite Hf in Herr, Hbind. cbn in Herr, Hbind. subst err.
  destruct (assign_and_return_passes (dest t) res None h Hbind) as [h'' Hp].
  congruence.
Qed.

End GoFacts.

(* ===================================================================== *)
(** ** Runs in which nothing fails and nothing is cancelled *)
(* ===================================================================== *)

Section Calm.
Context `{Types}.
Variable tasks : list asyncHolder.
Variable h0 : heap.
Hypothesis Hquiet : forall t, t ∈ tasks -> quiet t.
Hypothesis Hdistinct : forall i j ti tj a x y,
    tasks !! i = Some ti -> tasks !! j = Some tj ->
    writes ti = Some (a, x) -> writes tj = Some (a, y) -> i = j.

Lemma quiet_returns_nil t res err h ret h' :
  t ∈ tasks -> fun_ t tt = (res, err) ->
  assign_and_return (dest t) res err h = Returns ret h' -> ret = None.
Proof.
  intros Hin Hf Ha. destruct (Hquiet t Hin) as [Herr Hbind].
  rewrite Hf in Herr, Hbind. cbn in Herr, Hbind. subst err.
  destruct (assign_and_return_passes (dest t) res None h Hbind) as [h'' Hp].
  congruence.
Qed.

Lemma calm_trans st ev st' :
  is_Run ev = true -> calm tasks h0 st -> trans tasks st ev st' -> calm tasks h0 st'.
Proof.
  intros Hev [Hctx Herr Hal Hlen Hpool Hwr Hfr] Htr.
  destruct Htr as [ev| |e|i t res err Ht Hg Hf|i res err c Hg Hc|i res err Hg Hc
                   |i t res err ret h' Ht Hg Ha|i seen ret Hg];
    try discriminate Hev; try congruence.
  - by constructor.
  - pose proof (lookup_lt_Some _ _ _ Hg) as Hlt.
    constructor; cbn; auto.
    + by rewrite length_insert.
    + intros j t' g' Ht' Hg'. apply lookup_set_goroutine in Hg'.
      destruct Hg' as [(-> & -> & _)|[_ Hg']]; [|eauto]. cbn. congruence.
    + intros j t' a x Ht' Hw. rewrite stage_at_set.
      destruct (decide (j = i)) as [->|Hne]; [|eauto].
      rewrite decide_True by done. cbn. lia.
  - pose proof (lookup_lt_Some _ _ _ Hg) as Hlt.
    constructor; cbn; auto.
    + by rewrite length_insert.
    + intros j t' g' Ht' Hg'. apply lookup_set_goroutine in Hg'.
      destruct Hg' as [(-> & -> & _)|[_ Hg']]; [|eauto].
      apply (Hpool _ _ _ Ht' Hg).
    + intros j t' a x Ht' Hw. rewrite stage_at_set.
      destruct (decide (j = i)) as [->|Hne]; [|eauto].
      rewrite decide_True by done. cbn. lia.
  - pose proof (lookup_lt_Some _ _ _ Hg) as Hlt.
    assert (Hin : t ∈ tasks) by (eapply list_elem_of_lookup_2; eauto).
    pose proof (Hpool _ _ _ Ht Hg) as Hf. cbn in Hf.
    assert (ret = None) as -> by (eapply quiet_returns_nil; eauto).
    pose proof (assign_and_return_writes _ _ _ _ _ _ Hf Ha) as Hh'.
    constructor; cbn; auto.
    + by rewrite length_insert.
    + intros j t' g' Ht' Hg'. apply lookup_set_goroutine in Hg'.
      destruct Hg' as [(-> & -> & _)|[_ Hg']]; [|eauto]. by cbn.
    + intros j t' a x Ht' Hw.
      change (3 <= stage_at (set_goroutine i (Returned None None) (with_mem h' st)) j ->
              h' !! a = Some x).
      rewrite stage_at_set. cbn [pool with_mem].
      destruct (decide (j = i)) as [->|Hne].
      * intros _. assert (t' = t) as -> by congruence.
        rewrite Hh', Hw. apply lookup_insert_eq.
      * intros Hst. change (stage_at (with_mem h' st) j) with (stage_at st j) in Hst.
        specialize (Hwr _ _ _ _ Ht' Hw Hst). rewrite Hh'.
        destruct (writes t) as [[a2 x2]|] eqn:Hw2; [|exact Hwr].
        rewrite lookup_insert_ne; [exact Hwr|].
        intros ->. apply Hne. eapply Hdistinct; eauto.
    + intros y Hy. rewrite Hh'.
      destruct (writes t) as [[a2 x2]|] eqn:Hw2; [|auto].
      rewrite lookup_insert_ne; [auto|]. eapply Hy; eauto.
  - pose proof (lookup_lt_Some _ _ _ Hg) as Hlt.
    assert (Hi : is_Some (tasks !! i)) by (apply lookup_lt_is_Some_2; lia).
    destruct Hi as [t Ht].
    destruct (Hpool _ _ _ Ht Hg) as [-> ->].
    unfold leave_group. cbn [errOnce].
    constructor; cbn; auto.
    + by rewrite length_insert.
    + intros j t' g' Ht' Hg'. apply lookup_set_goroutine in Hg'.
      destruct Hg' as [(-> & -> & _)|[_ Hg']]; [|eauto]. by cbn.
    + intros j t' a x Ht' Hw Hst. apply (Hwr _ _ _ _ Ht' Hw).
      revert Hst. unfold stage_at. cbn.
      destruct (decide (j = i)) as [->|Hne].
      * rewrite list_lookup_insert_eq by done. rewrite Hg. cbn. lia.
      * by rewrite list_lookup_insert_ne.
Qed.

Lemma calm_exec sched st :
  forallb is_Run sched = true -> calm tasks h0 st -> calm tasks h0 (exec tasks sched st).
Proof.
  apply (exec_invariant_on tasks is_Run (calm tasks h0)).
  intros s ev s' Hev Hc Htr. exact (calm_trans s ev s' Hev Hc Htr).
Qed.

End Calm.

Section CalmGo.
Context `{Types}.

Lemma start_calm a ctx sched h :
  never_cancelled a ctx sched -> calm (funcs a) h (start a ctx h).
Proof.
  intros (Hctx & Hd & _).
  constructor.
  - rewrite start_ctxErr, Hctx. destruct (timeout a) as [d|] eqn:Ht; [|done].
    specialize (Hd d eq_refl). unfold WithTimeout_ctx.
    destruct (Z.leb_spec d 0); [lia|done].
  - apply start_gErr.
  - apply start_crashed.
  - by rewrite start_pool, length_replicate.
  - intros i t g _. rewrite start_pool. intros [-> _]%lookup_replicate. exact I.
  - intros i t x v _ _. unfold stage_at. rewrite start_pool.
    destruct (replicate _ _ !! i) as [g|] eqn:Hg; cbn; [|lia].
    apply lookup_replicate in Hg as [-> _]. cbn. lia.
  - intros y _. by rewrite start_mem.
Qed.

(** A batch of tasks that all succeed, with pairwise distinct targets, run
    under a context that is never cancelled: [Go] returns nil, every write
    has landed, and no other variable has changed. *)
Lemma Go_calm a ctx sched h :
  never_cancelled a ctx sched ->
  (forall t, t ∈ funcs a -> quiet t) ->
  (forall i j ti tj x v w,
      funcs a !! i = Some ti -> funcs a !! j = Some tj ->
      writes ti = Some (x, v) -> writes tj = Some (x, w) -> i = j) ->
  exists h',
    Go a ctx sched h = Returns None h' /\
    (forall t x v, t ∈ funcs a -> writes t = Some (x, v) -> h' !! x = Some v) /\
    (forall y, (forall t x v, t ∈ funcs a -> writes t = Some (x, v) -> x <> y) ->
               h' !! y = h !! y).
Proof.
  intros Hnc Hq Hd.
  assert (Hcalm : calm (funcs a) h (Go_state a ctx sched h)).
  { unfold Go_state. apply calm_exec.
    - exact Hq.
    - intros i j ti tj x v w. eauto.
    - rewrite forallb_app, drain_runs, andb_true_r. apply Hnc.
    - eapply start_calm; eauto. }
  exists (mem (Go_state a ctx sched h)). split; [|split].
  - unfold Go. rewrite (calm_alive _ _ _ Hcalm), (calm_err _ _ _ Hcalm). reflexivity.
  - intros t x v Hin Hw. apply list_elem_of_lookup_1 in Hin as [i Hi].
    eapply (calm_written _ _ _ Hcalm); eauto.
    destruct (Go_exited a ctx sched h i t Hi) as (seen & ret & Hg & _).
    rewrite (stage_at_Some _ _ _ Hg). cbn. lia.
  - apply (calm_frame _ _ _ Hcalm).
Qed.

End CalmGo.

(* ===================================================================== *)
(** ** Runs under a context that is done from the start *)
(* ===================================================================== *)

Section Aborted.
Context `{Types}.
Variable tasks : list asyncHolder.
Implicit Types (st : state) (h : heap) (c : error).

Lemma errOnce_ctxErr ret st c :
  ctxErr st = Some c -> ctxErr (errOnce ret st) = Some c.
Proof. intros Hc. unfold errOnce. destruct ret, (gErr st); cbn; rewrite ?Hc; done. Qed.

Lemma aborted_trans c h st ev st' :
  aborted c h st -> trans tasks st ev st' -> aborted c h st'.
Proof.
  intros [Hctx Hmem Hpool Herr] Htr.
  destruct Htr as [ev| |e|i t res err Ht Hg Hf|i res err c' Hg Hc|i res err Hg Hc
                   |i t res err ret h' Ht Hg Ha|i seen ret Hg];
    try congruence.
  - by constructor.
  - constructor; cbn; auto. by rewrite Hctx.
  - constructor; cbn; auto. by rewrite Hctx.
  - constructor; cbn; auto.
    intros j g Hj. apply lookup_set_goroutine in Hj.
    destruct Hj as [(-> & -> & _)|[_ Hj]]; [exact I|eauto].
  - assert (c' = c) as -> by congruence.
    constructor; cbn; auto.
    intros j g Hj. apply lookup_set_goroutine in Hj.
    destruct Hj as [(-> & -> & _)|[_ Hj]]; [|eauto]. by cbn.
  - destruct (Hpool _ _ Hg).
  - destruct (Hpool _ _ Hg) as [-> ->]. unfold leave_group.
    constructor; cbn.
    + by apply errOnce_ctxErr.
    + by rewrite errOnce_mem.
    + rewrite errOnce_pool. intros j g Hj. apply lookup_set_goroutine in Hj.
      destruct Hj as [(-> & -> & _)|[_ Hj]]; [|eauto]. by cbn.
    + rewrite errOnce_gErr. destruct Herr as [->| ->]; auto.
Qed.

(** Every goroutine finds the context done at its check point, so every
    closure returns the cancellation error and no variable is written. *)
Lemma exec_aborted c h sched st :
  tasks <> [] -> sound tasks st -> aborted c h st ->
  let st' := exec tasks (sched ++ drain (length tasks)) st in
  crashed st' = false /\
  gErr st' = Some (Errorf_w msg_cancelled c) /\
  mem st' = h /\
  forall i, i < length tasks ->
    pool st' !! i = Some (Exited (Some c) (Some (Errorf_w msg_cancelled c))).
Proof.
  intros Hne Hs Hab st'.
  assert (Hs' : sound tasks st') by (apply sound_exec, Hs).
  assert (Hab' : aborted c h st').
  { subst st'. revert Hab. apply exec_invariant. intros s ev s'. apply aborted_trans. }
  assert (Hex : forall i, i < length tasks ->
            pool st' !! i = Some (Exited (Some c) (Some (Errorf_w msg_cancelled c)))).
  { intros i Hi. destruct (lookup_lt_is_Some_2 tasks i Hi) as [t Ht].
    destruct (exec_drain_exited tasks sched st i t Hs Ht) as (seen & ret & Hg & _).
    fold st' in Hg. destruct (aborted_pool _ _ _ Hab' _ _ Hg) as [-> ->]. exact Hg. }
  split; [apply (sound_alive _ _ Hs')|]. split; [|split; [apply (aborted_mem _ _ _ Hab')|exact Hex]].
  assert (H0 : 0 < length tasks) by (destruct tasks; [done|cbn; lia]).
  assert (Hin : (0, Some (Errorf_w msg_cancelled c)) ∈ order st').
  { apply (sound_order _ _ Hs'). eauto. }
  destruct (first_error_elem _ _ _ Hin) as [e' He'].
  rewrite <- (sound_first _ _ Hs') in He'.
  destruct (aborted_err _ _ _ Hab') as [Hn|Hw]; congruence.
Qed.

End Aborted.

(* ===================================================================== *)
(** ** Batches of one task *)
(* ===================================================================== *)

Section Solo.
Context `{Types}.
Variable t : asyncHolder.
Variable h0 : heap.
Implicit Types (st : state).

Lemma solo_trans st ev st' :
  is_Run ev = true -> solo t h0 st -> trans [t] st ev st' -> solo t h0 st'.
Proof.
  intros Hev [Hal Hsolo] Htr.
  destruct (pool st) as [|g [|]] eqn:Hp; try done.
  assert (Hidx : forall i g', [g] !! i = Some g' -> i = 0 /\ g' = g).
  { intros [|i] g' Hl; cbn in Hl; [by injection Hl as ->|].
    destruct i; discriminate Hl. }
  destruct Htr as [ev| |e|i t' res err Ht Hg Hf|i res err c Hg Hc|i res err Hg Hc
                   |i t' res err ret h' Ht Hg Ha|i seen ret Hg];
    try discriminate Hev.
  - split; [exact Hal|]. by rewrite Hp.
  - rewrite Hp in Hg. destruct (Hidx _ _ Hg) as [-> <-].
    injection Ht as <-. destruct Hsolo as (? & ? & ?).
    split; [exact Hal|]. cbn. rewrite Hp. cbn. auto.
  - rewrite Hp in Hg. destruct (Hidx _ _ Hg) as [-> <-].
    destruct Hsolo as (? & _). congruence.
  - rewrite Hp in Hg. destruct (Hidx _ _ Hg) as [-> <-].
    split; [exact Hal|]. cbn. rewrite Hp. cbn. exact Hsolo.
  - rewrite Hp in Hg. destruct (Hidx _ _ Hg) as [-> <-].
    injection Ht as <-. destruct Hsolo as (_ & Hg' & Hm & Hf).
    split; [exact Hal|]. cbn. rewrite Hp. cbn. split; [exact Hg'|].
    unfold task_body. rewrite Hf. cbn. by rewrite <- Hm.
  - rewrite Hp in Hg. destruct (Hidx _ _ Hg) as [-> <-].
    destruct Hsolo as [Hg' Hb].
    split; [unfold leave_group; cbn; by rewrite errOnce_crashed|].
    unfold leave_group. cbn. rewrite errOnce_pool, Hp. cbn.
    rewrite errOnce_gErr, Hg', errOnce_mem. auto.
Qed.

Lemma solo_exec sched st :
  forallb is_Run sched = true -> solo t h0 st -> solo t h0 (exec [t] sched st).
Proof.
  apply (exec_invariant_on [t] is_Run (solo t h0)).
  intros s ev s' Hev Hs Htr. exact (solo_trans s ev s' Hev Hs Htr).
Qed.

End Solo.

Section SoloGo.
Context `{Types}.

(** A batch of one task under a context that is never cancelled does what
    the closure does on its default branch. *)
Lemma Go_solo t tmo ctx sched h :
  never_cancelled (mkAsync [t] tmo) ctx sched ->
  Go (mkAsync [t] tmo) ctx sched h = task_body None t h.
Proof.
  intros Hnc. set (a := mkAsync [t] tmo).
  assert (Hsolo : solo t h (Go_state a ctx sched h)).
  { unfold Go_state. apply solo_exec.
    - rewrite forallb_app, drain_runs, andb_true_r. apply Hnc.
    - pose proof (start_calm a ctx sched h Hnc) as Hc.
      split; [apply start_crashed|]. rewrite start_pool. cbn.
      rewrite (calm_ctx _ _ _ Hc), start_gErr, start_mem. auto. }
  destruct (Go_exited a ctx sched h 0 t eq_refl) as (seen & ret & Hg & _).
  destruct Hsolo as [Hal Hsolo]. unfold Go. rewrite Hal.
  destruct (pool (Go_state a ctx sched h)) as [|g [|]] eqn:Hp; try done.
  cbn in Hg. injection Hg as ->. destruct Hsolo as [-> ->]. reflexivity.
Qed.

End SoloGo.

(* ===================================================================== *)
(** ** Runs in which a single task fails *)
(* ===================================================================== *)

Section Lone.
Context `{Types}.
Variable tasks : list asyncHolder.
Variables (k : nat) (tk : asyncHolder) (resk : any) (e : error).
Hypothesis Hk : tasks !! k = Some tk.
Hypothesis Hfk : fun_ tk tt = (resk, Some e).
Hypothesis Hbk : bind_fails (dest tk) resk = false.
Hypothesis Hothers : forall j t, j <> k -> tasks !! j = Some t -> quiet t.
Implicit Types (st : state).

Lemma lone_trans st ev st' :
  is_Run ev = true -> lone tasks k e st -> trans tasks st ev st' -> lone tasks k e st'.
Proof.
  intros Hev (Hal & Hlen & [(Hg0 & Hc0 & Hpool)|(Hg1 & Hpk)]) Htr.
  - (* nobody has failed yet *)
    destruct Htr as [ev| |e0|i t res err Ht Hg Hf|i res err c Hg Hc|i res err Hg Hc
                     |i t res err ret h' Ht Hg Ha|i seen ret Hg];
      try discriminate Hev; try congruence.
    + split; [exact Hal|]. split; [exact Hlen|]. left. auto.
    + split; [exact Hal|]. split; [by cbn; rewrite length_insert|]. left. cbn. repeat split; auto.
      intros j t' g' Ht' Hg'. apply lookup_set_goroutine in Hg'.
      destruct Hg' as [(-> & -> & _)|[_ Hg']]; [|eauto]. cbn. congruence.
    + split; [exact Hal|]. split; [by cbn; rewrite length_insert|]. left. cbn. repeat split; auto.
      intros j t' g' Ht' Hg'. apply lookup_set_goroutine in Hg'.
      destruct Hg' as [(-> & -> & _)|[_ Hg']]; [|eauto].
      apply (Hpool _ _ _ Ht' Hg).
    + split; [exact Hal|]. split; [by cbn; rewrite length_insert|]. left. cbn. repeat split; auto.
      intros j t' g' Ht' Hg'. apply lookup_set_goroutine in Hg'.
      destruct Hg' as [(-> & -> & _)|[_ Hg']]; [|eauto].
      assert (t' = t) as -> by congruence.
      pose proof (Hpool _ _ _ Ht Hg) as Hf. cbn in Hf.
      cbn. split; [reflexivity|]. destruct (decide (i = k)) as [->|Hne].
      * assert (t = tk) as -> by congruence.
        rewrite Hfk in Hf. injection Hf as <- <-.
        destruct (assign_and_return_passes (dest tk) resk (Some e) (mem st) Hbk) as [h'' Hp].
        congruence.
      * eapply quiet_assign; eauto.
    + pose proof (lookup_lt_Some _ _ _ Hg) as Hlt.
      destruct (lookup_lt_is_Some_2 tasks i) as [t Ht].
      { lia. }
      destruct (Hpool _ _ _ Ht Hg) as [-> ->].
      unfold leave_group. destruct (decide (i = k)) as [->|Hne].
      * split; [by rewrite errOnce_crashed|]. split; [by cbn; rewrite length_insert, errOnce_pool|]. right. cbn.
        rewrite errOnce_gErr, Hg0, errOnce_pool. split; [done|].
        by apply list_lookup_insert_eq.
      * split; [by rewrite errOnce_crashed|]. split; [by cbn; rewrite length_insert, errOnce_pool|]. left. cbn.
        rewrite errOnce_gErr, Hg0, errOnce_pool. split; [done|]. split; [done|].
        intros j t' g' Ht' Hg'. apply lookup_set_goroutine in Hg'.
        destruct Hg' as [(-> & -> & _)|[_ Hg']]; [|eauto]. by cbn.
  - (* the error of task k is in *)
    assert (Hkeep : forall i g g', pool st !! i = Some g -> stage g < 4 ->
                      <[i := g']> (pool st) !! k = Some (Exited None (Some e))).
    { intros i g g' Hg Hst. rewrite list_lookup_insert_ne; [exact Hpk|].
      intros ->. rewrite Hpk in Hg. injection Hg as <-. cbn in Hst. lia. }
    destruct Htr as [ev| |e0|i t res err Ht Hg Hf|i res err c Hg Hc|i res err Hg Hc
                     |i t res err ret h' Ht Hg Ha|i seen ret Hg];
      try discriminate Hev.
    + split; [exact Hal|]. split; [exact Hlen|]. right. auto.
    + split; [exact Hal|]. split; [by cbn; rewrite length_insert|]. right. cbn. split; [exact Hg1|]. eapply Hkeep; eauto; cbn; lia.
    + split; [exact Hal|]. split; [by cbn; rewrite length_insert|]. right. cbn. split; [exact Hg1|]. eapply Hkeep; eauto; cbn; lia.
    + split; [exact Hal|]. split; [by cbn; rewrite length_insert|]. right. cbn. split; [exact Hg1|]. eapply Hkeep; eauto; cbn; lia.
    + split; [exact Hal|]. split; [by cbn; rewrite length_insert|]. right. cbn. split; [exact Hg1|]. eapply Hkeep; eauto; cbn; lia.
    + unfold leave_group. split; [by rewrite errOnce_crashed|]. split; [by cbn; rewrite length_insert, errOnce_pool|]. right. cbn.
      rewrite errOnce_gErr, Hg1, errOnce_pool. split; [done|].
      eapply Hkeep; eauto; cbn; lia.
Qed.

Lemma lone_exec sched st :
  forallb is_Run sched = true -> lone tasks k e st -> lone tasks k e (exec tasks sched st).
Proof.
  apply (exec_invariant_on tasks is_Run (lone tasks k e)).
  intros s ev s' Hev Hl Htr. exact (lone_trans s ev s' Hev Hl Htr).
Qed.

End Lone.

Section LoneGo.
Context `{Types}.

(** When the operation of one task fails, every other task succeeds and the
    context is never cancelled from outside, [Go] returns the error of that
    operation, whatever the schedule. *)
Lemma Go_lone a ctx sched h k t res e :
  funcs a !! k = Some t -> fun_ t tt = (res, Some e) ->
  bind_fails (dest t) res = false ->
  (forall j t', j <> k -> funcs a !! j = Some t' -> quiet t') ->
  never_cancelled a ctx sched ->
  Go a ctx sched h = Returns (Some e) (mem (Go_state a ctx sched h)).
Proof.
  intros Hk Hf Hb Hq Hnc.
  assert (Hl : lone (funcs a) k e (Go_state a ctx sched h)).
  { unfold Go_state. apply (lone_exec (funcs a) k t res e Hk Hf Hb Hq).
    - rewrite forallb_app, drain_runs, andb_true_r. apply Hnc.
    - pose proof (start_calm a ctx sched h Hnc) as Hc.
      split; [apply start_crashed|]. split; [by rewrite start_pool, length_replicate|].
      left. split; [apply start_gErr|]. split; [apply (calm_ctx _ _ _ Hc)|].
      intros j t' g _. rewrite start_pool. intros [-> _]%lookup_replicate. exact I. }
  destruct (Go_exited a ctx sched h k t Hk) as (seen & ret & Hg & _).
  destruct Hl as (Hal & _ & [(_ & _ & Hpool)|(Herr & _)]).
  - destruct (Hpool _ _ _ Hk Hg) as (_ & _ & Hne). done.
  - unfold Go. by rewrite Hal, Herr.
Qed.

End LoneGo.

(* ===================================================================== *)
(** ** Properties of the batch runner *)
(* ===================================================================== *)

Section Properties.
Context `{Types}.
Implicit Types (a : async) (ctx : Context) (sched : list event) (h : heap).
Implicit Types (t : asyncHolder) (v r : Value) (x : addr) (e : error).

Lemma ptr_assignTo r (T : rtype) : ptr (assignTo r T) = ptr r.
Proof. unfold assignTo. by destruct (Kind_of T). Qed.

Lemma writes_accepted t v x r err :
  dest t = Some v -> Kind_of (typ v) = Pointer -> pointer_of (ptr v) = Some x ->
  fun_ t tt = (Some r, err) -> AssignableTo (typ r) (Elem_of (typ v)) = true ->
  writes t = Some (x, assignTo r (Elem_of (typ v))) /\
  bind_fails (dest t) (Some r) = false.
Proof.
  intros Hd Hk Hp Hf Ha. unfold writes, bind_fails, rejects, IsNil.
  rewrite Hd, Hf. cbn [fst]. rewrite Hp, Ha, bool_decide_eq_true_2 by exact Hk.
  cbn. done.
Qed.

Lemma writes_slot t x w : writes t = Some (x, w) -> slot t = Some x.
Proof.
  unfold writes, slot. destruct (dest t) as [v|]; [|done].
  destruct ((fun_ t tt).1); [|done]. destruct (rejects _ _); [done|].
  destruct (pointer_of (ptr v)); [|done]. by intros [= -> _].
Qed.

Lemma NoDup_omap_lookup {A B} (f : A -> option B) (l : list A) i j ai aj b :
  NoDup (omap f l) -> l !! i = Some ai -> l !! j = Some aj ->
  f ai = Some b -> f aj = Some b -> i = j.
Proof.
  revert i j. induction l as [|a0 l IH]; intros i j Hnd Hi Hj Hfi Hfj.
  - by rewrite lookup_nil in Hi.
  - assert (Hin : forall k ak, l !! k = Some ak -> f ak = Some b -> b ∈ omap f l).
    { intros k ak Hk Hfk. apply list_elem_of_omap. exists ak. split; [|done].
      eapply list_elem_of_lookup_2; eauto. }
    cbn in Hnd. destruct i as [|i], j as [|j]; cbn in Hi, Hj.
    + done.
    + injection Hi as ->. rewrite Hfi in Hnd. apply NoDup_cons in Hnd as [Hn _].
      exfalso. apply Hn. eauto.
    + injection Hj as ->. rewrite Hfj in Hnd. apply NoDup_cons in Hnd as [Hn _].
      exfalso. apply Hn. eauto.
    + f_equal. apply IH; auto.
      destruct (f a0); [by apply NoDup_cons in Hnd as [_ ?]|done].
Qed.

(** C1, fan-out correctness.  Take a batch of any number of tasks whose
    destinations are non-nil pointers to pairwise distinct variables and
    whose operations each return a non-nil value assignable to the type its
    destination points to, and no error.  If the context is never cancelled
    then, whatever the schedule (so whatever the order in which the
    goroutines complete), [Go] returns nil and afterwards every slot holds
    the value its operation produced: the same data word, stored under the
    slot's type as [reflect]'s [Set] does. *)
Theorem fan_out_correctness a ctx sched h :
  never_cancelled a ctx sched ->
  (forall t, t ∈ funcs a ->
     exists v x r,
       dest t = Some v /\ Kind_of (typ v) = Pointer /\
       pointer_of (ptr v) = Some x /\
       fun_ t tt = (Some r, None) /\
       AssignableTo (typ r) (Elem_of (typ v)) = true) ->
  NoDup (omap slot (funcs a)) ->
  exists h',
    Go a ctx sched h = Returns None h' /\
    forall t v x r,
      t ∈ funcs a -> dest t = Some v -> pointer_of (ptr v) = Some x ->
      fun_ t tt = (Some r, None) ->
      h' !! x = Some (assignTo r (Elem_of (typ v))) /\
      ptr (assignTo r (Elem_of (typ v))) = ptr r.
Proof.
  intros Hnc Hok Hnd.
  destruct (Go_calm a ctx sched h Hnc) as (h' & HGo & Hwr & _).
  - intros t Hin. destruct (Hok t Hin) as (v & x & r & Hd & Hk & Hp & Hf & Ha).
    destruct (writes_accepted t v x r None Hd Hk Hp Hf Ha) as [_ Hb].
    split; rewrite Hf; [done|exact Hb].
  - intros i j ti tj x v w Hi Hj Hwi Hwj.
    eapply (NoDup_omap_lookup slot); eauto using writes_slot.
  - exists h'. split; [exact HGo|].
    intros t v x r Hin Hd Hp Hf. split; [|apply ptr_assignTo].
    destruct (Hok t Hin) as (v' & x' & r' & Hd' & Hk & Hp' & Hf' & Ha).
    assert (v' = v) as -> by congruence.
    assert (x' = x) as -> by congruence.
    assert (r' = r) as -> by congruence.
    apply (Hwr t). { exact Hin. }
    by destruct (writes_accepted t v x r None Hd Hk Hp Hf Ha).
Qed.

(** C10, empty batch.  With no task registered [Go] returns nil and leaves
    every variable alone, whether or not a timeout is configured, whatever
    the state of the caller's context and whatever happens meanwhile. *)
Theorem empty_batch (tmo : option Z) ctx sched h :
  Go (mkAsync [] tmo) ctx sched h = Returns None h.
Proof.
  rewrite Go_returns.
  set (st := Go_state (mkAsync [] tmo) ctx sched h).
  assert (Hinv : pool st = [] /\ order st = [] /\ mem st = h).
  { subst st. unfold Go_state.
    apply (exec_invariant [] (fun s => pool s = [] /\ order s = [] /\ mem s = h)).
    - intros s ev s' (Hp & Ho & Hm) Htr.
      destruct Htr as [ev0| |e0|i t res err Ht Hg Hf|i res err c Hg Hc|i res err Hg Hc
                       |i t res err ret h' Ht Hg Ha|i seen ret Hg];
        try (rewrite Hp in Hg; by rewrite lookup_nil in Hg); by cbn.
    - by rewrite start_pool, start_order, start_mem. }
  destruct Hinv as (_ & -> & ->). reflexivity.
Qed.

Lemma start_timer a ctx h :
  timer (start a ctx h) =
  match timeout a with
  | Some d => (WithTimeout_ctx (Err ctx) d).2
  | None => false
  end.
Proof. unfold start. destruct (timeout a) as [d|]; [|done]. by destruct (WithTimeout_ctx _ _). Qed.

Lemma start_aborted a ctx h c :
  ctxErr (start a ctx h) = Some c -> aborted c h (start a ctx h).
Proof.
  intros Hc. constructor.
  - exact Hc.
  - apply start_mem.
  - intros i g. rewrite start_pool. intros [-> _]%lookup_replicate. exact I.
  - left. apply start_gErr.
Qed.

(** Once the context is done before any goroutine has reached its check
    point, [Go] returns the cancellation error and writes nothing. *)
Lemma Go_aborted a ctx pre rest h c :
  funcs a <> [] ->
  aborted c h (exec (funcs a) pre (start a ctx h)) ->
  Go a ctx (pre ++ rest) h = Returns (Some (Errorf_w msg_cancelled c)) h.
Proof.
  intros Hne Hab. unfold Go, Go_state.
  rewrite <- app_assoc, exec_app.
  destruct (exec_aborted (funcs a) c h rest _ Hne
              (sound_exec _ pre _ (start_sound a ctx h)) Hab)
    as (Hal & Herr & Hmem & _).
  by rewrite Hal, Herr, Hmem.
Qed.

Lemma Is_refl e : Is e e = true.
Proof. destruct e; cbn; by rewrite bool_decide_eq_true_2. Qed.

Lemma Is_Errorf_w prefix e : Is (Errorf_w prefix e) e = true.
Proof. cbn. rewrite Is_refl. apply orb_true_r. Qed.

(** C4, pre-cancelled context.  A batch with at least one task, started
    with a caller's context that is already done with [Err() = c]: whatever
    the operations return and whatever the schedule, [Go] returns the
    cancellation error, which wraps [c], and no slot is written.  A closure
    that finds the context done at its check point returns that error
    without looking at the result of its operation. *)
Theorem pre_cancelled_context a ctx sched h c :
  funcs a <> [] -> Err ctx = Some c ->
  Go a ctx sched h = Returns (Some (Errorf_w msg_cancelled c)) h /\
  Unwrap (Errorf_w msg_cancelled c) = Some c /\
  Is (Errorf_w msg_cancelled c) c = true /\
  forall t h1, task_body (Some c) t h1 = Returns (Some (Errorf_w msg_cancelled c)) h1.
Proof.
  intros Hne Hctx. split; [|split; [done|split; [apply Is_Errorf_w|]]].
  - apply (Go_aborted a ctx [] sched h); [exact Hne|]. cbn.
    apply start_aborted. rewrite start_ctxErr, Hctx.
    by destruct (timeout a).
  - intros t h1. unfold task_body. by destruct (fun_ t tt).
Qed.

Lemma assign_and_return_Some v r err h :
  assign_and_return (Some v) (Some r) err h =
  match assignResult (Some v) (Some r) h with
  | Returns (Some assignErr) h' => Returns (Some (Errorf_w msg_assign assignErr)) h'
  | Returns None h' => Returns err h'
  | Panics => Panics
  end.
Proof. reflexivity. Qed.

Lemma prefix_nil (s : string) : String.prefix "" s = true.
Proof. by destruct s. Qed.

Lemma task_body_default (dst : any) (fn : AsyncFunc) res err h :
  fn tt = (res, err) ->
  task_body None (mkHolder dst fn) h = assign_and_return dst res err h.
Proof. intros Hf. unfold task_body. cbn. by rewrite Hf. Qed.


(** C9, a value together with an error.  For a task whose operation returns
    both a non-nil value [r] and a non-nil error [e], when the context is
    not cancelled: if the destination is a non-nil pointer to a type [r] is
    assignable to, the value is stored in the slot and the closure then
    returns [e] itself, which is what [Go] on the batch of that task
    returns; if the binding fails, the closure returns the binding error,
    wrapped, and [e] is lost. *)
Theorem value_and_error_together (dst : any) (fn : AsyncFunc) r e h :
  fn tt = (Some r, Some e) ->
  (forall v x,
     dst = Some v -> Kind_of (typ v) = Pointer -> pointer_of (ptr v) = Some x ->
     AssignableTo (typ r) (Elem_of (typ v)) = true ->
     task_body None (mkHolder dst fn) h =
       Returns (Some e) (<[x := assignTo r (Elem_of (typ v))]> h) /\
     forall tmo ctx sched,
       never_cancelled (mkAsync [mkHolder dst fn] tmo) ctx sched ->
       Go (mkAsync [mkHolder dst fn] tmo) ctx sched h =
         Returns (Some e) (<[x := assignTo r (Elem_of (typ v))]> h)) /\
  (bind_fails dst (Some r) = true ->
   exists assignErr,
     assignResult dst (Some r) h = Returns (Some assignErr) h /\
     task_body None (mkHolder dst fn) h =
       Returns (Some (Errorf_w "failed to assign result: " assignErr)) h /\
     forall tmo ctx sched,
       never_cancelled (mkAsync [mkHolder dst fn] tmo) ctx sched ->
       Go (mkAsync [mkHolder dst fn] tmo) ctx sched h =
         Returns (Some (Errorf_w "failed to assign result: " assignErr)) h).
Proof.
  intros Hf. split.
  - intros v x -> Hk Hp Ha.
    assert (Hb : task_body None (mkHolder (Some v) fn) h =
                 Returns (Some e) (<[x := assignTo r (Elem_of (typ v))]> h)).
    { rewrite (task_body_default _ _ _ _ _ Hf), assign_and_return_Some.
      by rewrite (assignResult_ok v x r h Hk Hp Ha). }
    split; [exact Hb|]. intros tmo ctx sched Hnc.
    by rewrite (Go_solo _ tmo ctx sched h Hnc).
  - intros Hfail.
    destruct (assign_and_return_fails dst (Some r) (Some e) h Hfail) as (ae & Hae & Hret).
    exists ae. split; [exact Hae|].
    assert (Hb : task_body None (mkHolder dst fn) h =
                 Returns (Some (Errorf_w "failed to assign result: " ae)) h).
    { by rewrite (task_body_default _ _ _ _ _ Hf). }
    split; [exact Hb|]. intros tmo ctx sched Hnc.
    by rewrite (Go_solo _ tmo ctx sched h Hnc).
Qed.

(** C2, first-error propagation, as the code has it.  [Go] returns the
    first non-nil error that a goroutine of the group returned, and nil
    when none returned an error.  A goroutine whose operation returns the
    error [e], which finds the context not cancelled at its check point and
    whose binding does not fail, returns [e] itself, not a wrapper of it;
    [Go] then returns a non-nil error, and this error is [e] whenever no
    goroutine returned an error before that one; it is so under every
    schedule when every other task succeeds and the context is never
    cancelled from outside. *)
Theorem first_error_propagation a ctx sched h :
  let st := Go_state a ctx sched h in
  Go a ctx sched h = Returns (first_error (map snd (order st))) (mem st) /\
  ((forall i ret, (i, ret) ∈ order st -> ret = None) ->
   Go a ctx sched h = Returns None (mem st)) /\
  forall k t res e,
    funcs a !! k = Some t -> fun_ t tt = (res, Some e) ->
    bind_fails (dest t) res = false ->
    (forall ret,
       pool st !! k = Some (Exited None ret) ->
       ret = Some e /\
       (exists err, Go a ctx sched h = Returns (Some err) (mem st)) /\
       exists before after,
         order st = before ++ (k, Some e) :: after /\
         (first_error (map snd before) = None ->
          Go a ctx sched h = Returns (Some e) (mem st))) /\
    ((forall j t', j <> k -> funcs a !! j = Some t' -> quiet t') ->
     never_cancelled a ctx sched ->
     Go a ctx sched h = Returns (Some e) (mem st)).
Proof.
  intros st. pose proof (Go_state_sound a ctx sched h) as Hs. fold st in Hs.
  pose proof (Go_returns a ctx sched h) as HGo. fold st in HGo.
  split; [exact HGo|]. split.
  - intros Hnone. by rewrite HGo, first_error_none.
  - intros k t res e Ht Hf Hbind. split.
    2:{ intros Hq Hnc. eapply Go_lone; eauto. }
    intros ret Hg.
    assert (Hret : ret = Some e).
    { destruct (sound_follows _ _ Hs _ _ _ Ht Hg) as (hx & hy & Hbody).
      unfold task_body in Hbody. rewrite Hf in Hbody. cbn in Hbody.
      destruct (assign_and_return_passes (dest t) res (Some e) hx Hbind) as [h' Hp].
      congruence. }
    subst ret. split; [reflexivity|].
    assert (Hin : (k, Some e) ∈ order st) by (apply (sound_order _ _ Hs); eauto).
    split.
    + destruct (first_error_elem _ _ _ Hin) as [err Herr]. exists err. by rewrite HGo, Herr.
    + apply list_elem_of_split in Hin as (before & after & Hord).
      exists before, after. split; [exact Hord|]. intros Hb.
      by rewrite HGo, Hord, map_app, first_error_app, Hb.
Qed.

End Properties.

(* ===================================================================== *)
(** ** The properties at the batches of the tests *)
(* ===================================================================== *)

Section Instances.
Import Demo.

Lemma demo_never_cancelled a sched :
  timeout a = None -> forallb is_Run sched = true ->
  never_cancelled a background sched.
Proof. intros Ht Hs. split; [reflexivity|]. split; [|exact Hs]. intros d. by rewrite Ht. Qed.

(** The batch of [TestAsyncBasicFunctionality], its second goroutine
    finishing first: [result] is 42 and [text] is "hello". *)
Lemma fan_out_correctness_witness :
  exists h',
    Go basic background [Run 1; Run 1; Run 0; Run 1; Run 1; Run 0] vars = Returns None h' /\
    forall t v x r,
      t ∈ funcs basic -> dest t = Some v -> pointer_of (ptr v) = Some x ->
      fun_ t tt = (Some r, None) ->
      h' !! x = Some (assignTo r (Elem_of (typ v))) /\
      ptr (assignTo r (Elem_of (typ v))) = ptr r.
Proof.
  apply fan_out_correctness.
  - apply demo_never_cancelled; reflexivity.
  - intros t Ht. apply elem_of_cons in Ht as [-> |Ht].
    { exists (ref TInt 1), 1, (int 42). repeat split; reflexivity. }
    apply elem_of_cons in Ht as [-> |Ht].
    { exists (ref TString 2), 2, (str "hello"). repeat split; reflexivity. }
    by apply elem_of_nil in Ht.
  - apply (bool_decide_unpack _). vm_compute. exact I.
Defined.

(** The batch of [TestAsyncWithError]: [Go] returns "test error" itself. *)
Lemma first_error_propagation_witness :
  Go with_error background [] vars =
    Returns (Some test_error) (mem (Go_state with_error background [] vars)) /\
  exists before after,
    order (Go_state with_error background [] vars) =
    before ++ (0, Some test_error) :: after.
Proof.
  destruct (first_error_propagation with_error background [] vars) as (_ & _ & Hk).
  destruct (Hk 0 (mkHolder (Some (ref TInt 1)) (returns None (Some test_error)))
               None test_error eq_refl eq_refl eq_refl)
    as [Hseen Hlone].
  split.
  - apply Hlone.
    + intros [|j] t' Hj Ht'; [done|discriminate Ht'].
    + apply demo_never_cancelled; reflexivity.
  - destruct (Hseen (Some test_error) eq_refl)
      as (_ & _ & before & after & Hord & _).
    exists before, after. exact Hord.
Defined.

(** The batch [two_failures] under a schedule in which the first goroutine
    passes its check point, the second then runs to its end, and the first
    resumes.  The operation of the first task returns "test error", its
    goroutine found the context not cancelled and its binding did not fail
    (it returned "test error" to the errgroup); yet [Go] returns the binding
    error of the second task, which is the error of no operation. *)
Lemma first_error_counterexample :
  funcs two_failures !! 0 =
    Some (mkHolder (Some (ref TInt 1)) (returns None (Some test_error))) /\
  returns None (Some test_error) tt = (None, Some test_error) /\
  pool (Go_state two_failures background
          [Run 0; Run 0; Run 1; Run 1; Run 1; Run 1] vars) !! 0 =
    Some (Exited None (Some test_error)) /\
  bind_fails (Some (ref TInt 1)) None = false /\
  Go two_failures background [Run 0; Run 0; Run 1; Run 1; Run 1; Run 1] vars =
    Returns (Some (Errorf_w "failed to assign result: "
               (errorString "type mismatch: cannot assign int to string"))) vars /\
  ~ (exists h',
       Go two_failures background [Run 0; Run 0; Run 1; Run 1; Run 1; Run 1] vars =
       Returns (Some test_error) h').
Proof.
  repeat split; try reflexivity.
  intros [h' Hgo]. vm_compute in Hgo. discriminate Hgo.
Qed.

(** The batch of [TestAsyncBasicFunctionality] under a context that was
    cancelled before [Go]. *)
Lemma pre_cancelled_context_witness :
  Go basic cancelled [Run 0; Run 1] vars =
    Returns (Some (Errorf_w msg_cancelled Canceled)) vars.
Proof.
  apply (pre_cancelled_context basic cancelled [Run 0; Run 1] vars Canceled).
  - discriminate.
  - reflexivity.
Defined.

(** A nil pointer, and a non-pointer, passed as destination of an operation
    that returns a nil result: the guard of [asyncTask] does not call
    [assignResult], the destination is not looked at and [Go] returns
    nil. *)
Lemma destination_validation_counterexample :
  Value_Kind (Some (nilptr TInt)) = Pointer /\
  IsNil (nilptr TInt) = true /\
  funcs nil_pointer_no_value = [mkHolder (Some (nilptr TInt)) (returns None None)] /\
  Go nil_pointer_no_value background [] vars = Returns None vars /\
  Value_Kind (Some (int 0)) <> Pointer /\
  funcs non_pointer_no_value = [mkHolder (Some (int 0)) (returns None None)] /\
  Go non_pointer_no_value background [] vars = Returns None vars.
Proof. repeat split; try reflexivity. discriminate. Qed.


(** An operation that returns 42 together with "test error". *)
Lemma value_and_error_together_witness :
  Go value_and_error background [] vars =
    Returns (Some test_error) (<[1 := int 42]> vars).
Proof.
  destruct (value_and_error_together (Some (ref TInt 1))
              (returns (Some (int 42)) (Some test_error)) (int 42) test_error vars eq_refl)
    as [Hok _].
  destruct (Hok (ref TInt 1) 1 eq_refl eq_refl eq_refl eq_refl) as [_ HGo].
  apply (HGo None background []).
  apply demo_never_cancelled; reflexivity.
Defined.

(** The messages as the README lists them. *)
Example message_type_mismatch :
  Go type_compat background [] vars =
  Returns (Some (wrapError
     "failed to assign result: type mismatch: cannot assign int to string"
     (errorString "type mismatch: cannot assign int to string"))) vars.
Proof. reflexivity. Qed.

Example message_invalid_destination :
  Go non_pointer background [] vars =
  Returns (Some (wrapError
     "failed to assign result: destination must be a pointer, received int (kind: int)"
     (errorString "destination must be a pointer, received int (kind: int)"))) vars.
Proof. reflexivity. Qed.

Example message_timeout :
  Go with_timeout background [TimerFires] vars =
  Returns (Some (wrapError
     "async operation was cancelled: context deadline exceeded"
     DeadlineExceeded)) vars.
Proof. reflexivity. Qed.

Example message_cancellation :
  Go basic cancelled [] vars =
  Returns (Some (wrapError
     "async operation was cancelled: context canceled" Canceled)) vars.
Proof. reflexivity. Qed.

(** [TestAsyncWithTimeoutSuccess]: the operation is back before the timer
    fires. *)
Example timeout_not_reached :
  Go with_timeout background [Run 0; Run 0; Run 0; Run 0; TimerFires] vars =
  Returns None (<[1 := int 42]> vars).
Proof. reflexivity. Qed.

End Instances.

(* ===================================================================== *)
(** ** Further properties: the builder and the binder *)
(* ===================================================================== *)

Section Builder.
Context `{Types}.

Lemma fold_calls (calls : list call) (a : async) :
  funcs (fold_left apply_call calls a) = funcs a ++ omap task_of calls /\
  timeout (fold_left apply_call calls a) =
    match last (omap timeout_of calls) with
    | Some d => Some d
    | None => timeout a
    end.
Proof.
  revert a. induction calls as [|c calls IH]; intros a.
  - cbn. by rewrite app_nil_r.
  - cbn [fold_left]. destruct (IH (apply_call a c)) as [-> ->].
    destruct c as [dst f|d]; cbn.
    + split; [by rewrite <- app_assoc|done].
    + split; [done|]. rewrite last_cons. by destruct (last _).
Qed.

(** X1, registration.  Whatever sequence of [Task] and [WithTimeout] calls
    is chained on a fresh batch, the queue holds the tasks of the [Task]
    calls, all of them and in call order, and the timeout is that of the
    last [WithTimeout] call (none if there was no such call): where in the
    chain a timeout is set does not matter, and a later one replaces an
    earlier one. *)
Theorem chain_registers (calls : list call) :
  funcs (chain calls) = omap task_of calls /\
  timeout (chain calls) = last (omap timeout_of calls).
Proof.
  unfold chain. destruct (fold_calls calls RunInAsync) as [-> ->].
  split; [done|]. cbn. by destruct (last _).
Qed.

End Builder.

Section BinderFacts.
Context `{Types}.
Implicit Types (dst res : any) (h : heap) (v r : Value) (x : addr).

Lemma assignResult_cases dst res h :
  (exists e, assignResult dst res h = Returns (Some e) h) \/
  (exists v x r,
     dst = Some v /\ res = Some r /\ Kind_of (typ v) = Pointer /\
     pointer_of (ptr v) = Some x /\
     AssignableTo (typ r) (Elem_of (typ v)) = true /\
     assignResult dst res h = Returns None (<[x := assignTo r (Elem_of (typ v))]> h)) \/
  (res = None /\
   (exists v x, dst = Some v /\ Kind_of (typ v) = Pointer /\
                pointer_of (ptr v) = Some x) /\
   assignResult dst res h = Panics).
Proof.
  destruct dst as [v|].
  2:{ left. eexists. apply assignResult_not_pointer. discriminate. }
  destruct (decide (Kind_of (typ v) = Pointer)) as [Hk|Hk].
  2:{ left. eexists. by apply assignResult_not_pointer. }
  destruct (pointer_of (ptr v)) as [x|] eqn:Hp.
  2:{ left. eexists. by apply assignResult_nil_pointer. }
  destruct res as [r|].
  - destruct (AssignableTo (typ r) (Elem_of (typ v))) eqn:Ha.
    + right. left. exists v, x, r. repeat split; try done. by apply assignResult_ok.
    + left. eexists. by apply assignResult_mismatch.
  - right. right. split; [done|]. split; [by exists v, x|].
    unfold assignResult. cbn [Value_Kind].
    rewrite bool_decide_eq_true_2 by exact Hk. cbn. by rewrite Hp.
Qed.

(** X2, panics.  Called on its own, [assignResult] panics in exactly one
    situation: a nil result for a destination that is a non-nil pointer
    ([resVal.Type()] on the zero Value).  The guard of [asyncTask] keeps
    that call from happening: neither the closure nor [Go] ever panics,
    whatever the batch, the context and the schedule. *)
Theorem panics_only_outside_Go dst res h :
  (assignResult dst res h = Panics <->
   res = None /\
   exists v x, dst = Some v /\ Kind_of (typ v) = Pointer /\
               pointer_of (ptr v) = Some x) /\
  (forall err, assign_and_return dst res err h <> Panics) /\
  (forall a ctx sched, Go a ctx sched h <> Panics).
Proof.
  split; [|split].
  - split.
    + intros Hp.
      destruct (assignResult_cases dst res h)
        as [[e He]|[(v & x & r & _ & _ & _ & _ & _ & He)|(Hr & Hd & _)]];
        [congruence|congruence|auto].
    + intros [-> (v & x & -> & Hk & Hp)].
      destruct (assignResult_cases (Some v) None h)
        as [[e He]|[(v' & x' & r & _ & [=] & _)|(_ & _ & He)]]; [|exact He].
      unfold assignResult in He. cbn [Value_Kind] in He.
      rewrite bool_decide_eq_true_2 in He by exact Hk. cbn in He.
      rewrite Hp in He. discriminate He.
  - intros err. apply assign_and_return_no_panic.
  - intros a ctx sched. by rewrite Go_returns.
Qed.

(** X3, what the binder does to the variables.  When [assignResult]
    returns an error it has written nothing.  When it returns nil, the
    destination is a non-nil pointer, the result is non-nil, the variable
    the destination points to holds the result and every other variable is
    as before; binding the same result again changes nothing. *)
Theorem assignResult_effect dst res h err h' :
  assignResult dst res h = Returns err h' ->
  (err <> None -> h' = h) /\
  (err = None ->
   exists v x r,
     dst = Some v /\ res = Some r /\ pointer_of (ptr v) = Some x /\
     h' !! x = Some (assignTo r (Elem_of (typ v))) /\
     (forall y, y <> x -> h' !! y = h !! y) /\
     assignResult dst res h' = Returns None h').
Proof.
  intros Hr.
  destruct (assignResult_cases dst res h)
    as [[e He]|[(v & x & r & -> & -> & Hk & Hp & Ha & He)|(_ & _ & He)]];
    [| |congruence].
  - rewrite He in Hr. injection Hr as <- <-. split; [done|discriminate].
  - rewrite He in Hr. injection Hr as <- <-. split; [done|]. intros _.
    exists v, x, r. repeat split; try done.
    + apply lookup_insert_eq.
    + intros y Hy. by apply lookup_insert_ne.
    + rewrite (assignResult_ok v x r _ Hk Hp Ha). by rewrite insert_insert_eq.
Qed.

End BinderFacts.

(* ===================================================================== *)
(** ** Further invariants of a run *)
(* ===================================================================== *)

Section RunFacts.
Context `{Types}.
Variable tasks : list asyncHolder.
Implicit Types (st : state) (sched : list event) (g : goroutine).

Lemma errOnce_ctx ret st :
  ctxErr (errOnce ret st) =
  match ret, gErr st with
  | Some _, None => cancel_ctx Canceled (ctxErr st)
  | _, _ => ctxErr st
  end.
Proof. unfold errOnce. destruct ret, (gErr st) eqn:E; cbn; congruence. Qed.

Lemma trans_length st ev st' :
  trans tasks st ev st' -> length (pool st') = length (pool st).
Proof.
  intros Htr.
  destruct Htr as [ev| |e|i t res err Ht Hg Hf|i res err c Hg Hc|i res err Hg Hc
                   |i t res err ret h' Ht Hg Ha|i seen ret Hg];
    cbn; rewrite ?length_insert, ?errOnce_pool; reflexivity.
Qed.

Lemma timer_kept st ev st' : trans tasks st ev st' -> timer st' = timer st.
Proof.
  intros Htr.
  destruct Htr as [ev| |e|i t res err Ht Hg Hf|i res err c Hg Hc|i res err Hg Hc
                   |i t res err ret h' Ht Hg Ha|i seen ret Hg];
    cbn; rewrite ?errOnce_timer; reflexivity.
Qed.

Lemma exec_timer sched st : timer (exec tasks sched st) = timer st.
Proof.
  revert st. induction sched as [|ev sched IH]; intros st; [done|].
  rewrite exec_cons, IH. eapply timer_kept, step_trans.
Qed.

(** A goroutine moves only on its own turn, and its first move is the
    call of its operation. *)
Lemma stage_other st ev st' i :
  trans tasks st ev st' -> ev <> Run i -> stage_at st' i = stage_at st i.
Proof.
  intros Htr Hne.
  destruct Htr as [ev| |e|j t res err Ht Hg Hf|j res err c Hg Hc|j res err Hg Hc
                   |j t res err ret h' Ht Hg Ha|j seen ret Hg];
    try reflexivity;
    assert (Hij : i <> j) by congruence.
  1-3: by rewrite stage_at_set, decide_False.
  - change (stage_at (set_goroutine j (Returned None ret) (with_mem h' st)) i = stage_at st i).
    by rewrite stage_at_set, decide_False.
  - unfold stage_at, leave_group. cbn. rewrite errOnce_pool.
    by rewrite list_lookup_insert_ne.
Qed.

Lemma stage_first st ev st' i :
  trans tasks st ev st' -> stage_at st i = 0 -> stage_at st' i <= 1.
Proof.
  intros Htr H0.
  destruct (decide (ev = Run i)) as [->|Hne].
  2:{ rewrite (stage_other _ _ _ _ Htr Hne). lia. }
  inversion Htr as [ev| |e|j t res err Ht Hg Hf|j res err c Hg Hc|j res err Hg Hc
                   |j t res err ret h' Ht Hg Ha|j seen ret Hg]; subst;
    try lia;
    try (rewrite (stage_at_Some _ _ _ Hg) in H0; discriminate H0).
  pose proof (lookup_lt_Some _ _ _ Hg) as Hlt.
  rewrite stage_at_set, !decide_True by done. cbn. lia.
Qed.

Lemma turns_cons ev sched i :
  turns i (ev :: sched) = (if decide (ev = Run i) then 1 else 0) + turns i sched.
Proof.
  unfold turns. cbn. destruct (event_eq_dec ev (Run i)) as [Heq|Hne].
  - by rewrite decide_True.
  - by rewrite decide_False.
Qed.

Lemma stage_exec_idle sched st i :
  turns i sched = 0 -> stage_at (exec tasks sched st) i = stage_at st i.
Proof.
  revert st. induction sched as [|ev sched IH]; intros st Ht; [done|].
  rewrite turns_cons in Ht. destruct (decide (ev = Run i)) as [|Hne]; [lia|].
  rewrite exec_cons, IH by lia. eapply stage_other; [apply step_trans|exact Hne].
Qed.

(** A goroutine that has had at most one turn has not reached its check
    point. *)
Lemma stage_exec_le sched st i :
  stage_at st i = 0 -> turns i sched <= 1 -> stage_at (exec tasks sched st) i <= 1.
Proof.
  revert st. induction sched as [|ev sched IH]; intros st H0 Ht; [cbn; lia|].
  rewrite turns_cons in Ht. rewrite exec_cons.
  destruct (decide (ev = Run i)) as [->|Hne].
  - rewrite stage_exec_idle by lia.
    eapply stage_first; [apply step_trans|exact H0].
  - apply IH; [|lia]. rewrite <- H0. eapply stage_other; [apply step_trans|exact Hne].
Qed.

Lemma stage_exec_ge sched st i :
  sound tasks st -> i < length tasks ->
  Nat.min 4 (stage_at st i + turns i sched) <= stage_at (exec tasks sched st) i.
Proof.
  revert st. induction sched as [|ev sched IH]; intros st Hs Hi.
  - change (turns i []) with 0. change (exec tasks [] st) with st. lia.
  - rewrite exec_cons, turns_cons.
    assert (Hs' : sound tasks (step tasks ev st))
      by (eapply sound_trans; [exact Hs|apply step_trans]).
    specialize (IH _ Hs' Hi).
    destruct (decide (ev = Run i)) as [->|Hne].
    + pose proof (stage_run tasks st i Hs Hi). lia.
    + pose proof (stage_trans tasks st ev _ i (step_trans tasks ev st)). lia.
Qed.

(** *** The writes that have landed stay *)

Section Distinct.
Hypothesis Hdistinct : forall i j ti tj x v w,
    tasks !! i = Some ti -> tasks !! j = Some tj ->
    writes ti = Some (x, v) -> writes tj = Some (x, w) -> i = j.

Lemma landed_trans st ev st' :
  sound tasks st -> landed tasks st -> trans tasks st ev st' -> landed tasks st'.
Proof.
  intros Hs Hl Htr.
  destruct Htr as [ev| |e|i t res err Ht Hg Hf|i res err c Hg Hc|i res err Hg Hc
                   |i t res err ret h' Ht Hg Ha|i seen ret Hg];
    try exact Hl.
  - intros j t' g' x v Ht' Hg' Hp Hw. cbn in Hg'. apply lookup_set_goroutine in Hg'.
    destruct Hg' as [(-> & -> & _)|[_ Hg']]; [discriminate Hp|]. cbn. eauto.
  - intros j t' g' x v Ht' Hg' Hp Hw. cbn in Hg'. apply lookup_set_goroutine in Hg'.
    destruct Hg' as [(-> & -> & _)|[_ Hg']]; [discriminate Hp|]. cbn. eauto.
  - intros j t' g' x v Ht' Hg' Hp Hw. cbn in Hg'. apply lookup_set_goroutine in Hg'.
    destruct Hg' as [(-> & -> & _)|[_ Hg']]; [discriminate Hp|]. cbn. eauto.
  - pose proof (sound_follows _ _ Hs _ _ _ Ht Hg) as Hf. cbn in Hf.
    pose proof (assign_and_return_writes _ _ _ _ _ _ Hf Ha) as Hh'.
    intros j t' g' x v Ht' Hg' Hp Hw. cbn in Hg'. apply lookup_set_goroutine in Hg'.
    cbn [mem set_goroutine with_mem].
    destruct Hg' as [(-> & -> & _)|[Hne Hg']].
    + assert (t' = t) as -> by congruence. rewrite Hh', Hw. apply lookup_insert_eq.
    + specialize (Hl _ _ _ _ _ Ht' Hg' Hp Hw). rewrite Hh'.
      destruct (writes t) as [[x2 v2]|] eqn:Hw2; [|exact Hl].
      rewrite lookup_insert_ne; [exact Hl|].
      intros ->. apply Hne. eapply Hdistinct; eauto.
  - intros j t' g' x v Ht' Hg' Hp Hw. unfold leave_group in *. cbn in Hg' |- *.
    rewrite errOnce_pool in Hg'. rewrite errOnce_mem.
    apply lookup_set_goroutine in Hg'.
    destruct Hg' as [(-> & -> & _)|[_ Hg']]; [|eauto].
    eapply (Hl _ _ _ _ _ Ht' Hg); [|exact Hw]. exact Hp.
Qed.

Lemma landed_exec sched st :
  sound tasks st -> landed tasks st -> landed tasks (exec tasks sched st).
Proof.
  intros Hs Hl.
  assert (sound tasks (exec tasks sched st) /\ landed tasks (exec tasks sched st)) as [_ ?];
    [|done].
  apply (exec_invariant tasks (fun s => sound tasks s /\ landed tasks s)); [|done].
  intros s ev s' [Hs1 Hl1] Htr. split; [eapply sound_trans; eauto|eapply landed_trans; eauto].
Qed.

End Distinct.

(** *** Where the values in memory come from *)

Lemma provenance_trans h0 st ev st' :
  sound tasks st -> provenance tasks h0 st -> trans tasks st ev st' ->
  provenance tasks h0 st'.
Proof.
  intros Hs Hpr Htr.
  destruct Htr as [ev| |e|i t res err Ht Hg Hf|i res err c Hg Hc|i res err Hg Hc
                   |i t res err ret h' Ht Hg Ha|i seen ret Hg];
    try exact Hpr.
  - pose proof (sound_follows _ _ Hs _ _ _ Ht Hg) as Hf. cbn in Hf.
    pose proof (assign_and_return_writes _ _ _ _ _ _ Hf Ha) as Hh'.
    intros y. cbn [mem set_goroutine with_mem]. rewrite Hh'.
    destruct (writes t) as [[x v]|] eqn:Hw; [|apply Hpr].
    destruct (decide (x = y)) as [->|Hne].
    + right. exists t, v. split; [eapply list_elem_of_lookup_2; eauto|].
      split; [exact Hw|apply lookup_insert_eq].
    + rewrite lookup_insert_ne by done. apply Hpr.
  - intros y. unfold leave_group. cbn. rewrite errOnce_mem. apply Hpr.
Qed.

Lemma provenance_exec h0 sched st :
  sound tasks st -> provenance tasks h0 st -> provenance tasks h0 (exec tasks sched st).
Proof.
  intros Hs Hp.
  assert (sound tasks (exec tasks sched st) /\ provenance tasks h0 (exec tasks sched st))
    as [_ ?]; [|done].
  apply (exec_invariant tasks (fun s => sound tasks s /\ provenance tasks h0 s)); [|done].
  intros s ev s' [Hs1 Hp1] Htr.
  split; [eapply sound_trans; eauto|eapply provenance_trans; eauto].
Qed.

(** *** Nothing happens before the first check point *)

Lemma untouched_trans h0 st ev st' :
  untouched h0 st -> trans tasks st ev st' -> untouched h0 st'.
Proof.
  intros [[Hm Hg0]|[i Hi]] Htr.
  2:{ right. exists i. pose proof (stage_trans tasks st ev st' i Htr). lia. }
  destruct Htr as [ev| |e|i t res err Ht Hg Hf|i res err c Hg Hc|i res err Hg Hc
                   |i t res err ret h' Ht Hg Ha|i seen ret Hg];
    try (left; by cbn);
    pose proof (lookup_lt_Some _ _ _ Hg) as Hlt.
  - right. exists i.
    change (2 <= stage_at (set_goroutine i (Returned None ret) (with_mem h' st)) i).
    rewrite stage_at_set. cbn. rewrite !decide_True by done. cbn. lia.
  - right. exists i. unfold stage_at, leave_group. cbn.
    rewrite errOnce_pool, list_lookup_insert_eq by done. cbn. lia.
Qed.

Lemma untouched_exec h0 sched st :
  untouched h0 st -> untouched h0 (exec tasks sched st).
Proof. apply exec_invariant. intros s ev s'. apply untouched_trans. Qed.

(** *** When only the errgroup cancels the context *)

Lemma orderly_trans st ev st' :
  is_Run ev = true -> orderly st -> trans tasks st ev st' -> orderly st'.
Proof.
  intros Hev [Hctx Hcause Hsaw Herr] Htr.
  assert (Hkeep : forall i g g' k e,
             pool st !! i = Some g -> stage g < 4 ->
             pool st !! k = Some (Exited None (Some e)) ->
             <[i := g']> (pool st) !! k = Some (Exited None (Some e))).
  { intros i g g' k e Hg Hst Hk. rewrite list_lookup_insert_ne; [exact Hk|].
    intros ->. rewrite Hk in Hg. injection Hg as <-. cbn in Hst. lia. }
  destruct Htr as [ev| |e|i t res err Ht Hg Hf|i res err c Hg Hc|i res err Hg Hc
                   |i t res err ret h' Ht Hg Ha|i seen ret Hg];
    try discriminate Hev.
  - by constructor.
  - constructor; cbn; auto.
    + intros j g' Hg'. apply lookup_set_goroutine in Hg'.
      destruct Hg' as [(-> & -> & _)|[_ Hg']]; [by left|eauto].
    + intros e He. destruct (Herr e He) as [k Hk]. exists k.
      eapply Hkeep; eauto; cbn; lia.
  - assert (c = Canceled) as -> by (destruct Hctx; congruence).
    constructor; cbn; auto.
    + intros j g' Hg'. apply lookup_set_goroutine in Hg'.
      destruct Hg' as [(-> & -> & _)|[_ Hg']]; [by right|eauto].
    + intros e He. destruct (Herr e He) as [k Hk]. exists k.
      eapply Hkeep; eauto; cbn; lia.
  - constructor; cbn; auto.
    + intros j g' Hg'. apply lookup_set_goroutine in Hg'.
      destruct Hg' as [(-> & -> & _)|[_ Hg']]; [by left|eauto].
    + intros e He. destruct (Herr e He) as [k Hk]. exists k.
      eapply Hkeep; eauto; cbn; lia.
  - constructor; cbn; auto.
    + intros j g' Hg'. apply lookup_set_goroutine in Hg'.
      destruct Hg' as [(-> & -> & _)|[_ Hg']]; [by left|eauto].
    + intros e He. destruct (Herr e He) as [k Hk]. exists k.
      eapply Hkeep; eauto; cbn; lia.
  - pose proof (lookup_lt_Some _ _ _ Hg) as Hlt.
    pose proof (Hsaw _ _ Hg) as Hsi. cbn in Hsi.
    unfold leave_group.
    constructor; cbn; rewrite ?errOnce_pool, ?errOnce_ctx, ?errOnce_gErr.
    + destruct ret as [e|], (gErr st) as [e0|] eqn:Hg0; auto.
      destruct Hcause as [->|[? [=]]]. by right.
    + destruct ret as [e|], (gErr st) as [e0|] eqn:Hg0; auto.
    + assert (Hc' : ctxErr st = Some Canceled ->
                match ret, gErr st with
                | Some _, None => cancel_ctx Canceled (ctxErr st)
                | _, _ => ctxErr st
                end = Some Canceled).
      { intros Hc. destruct ret, (gErr st); by rewrite ?Hc. }
      intros j g' Hg'. apply lookup_set_goroutine in Hg'.
      destruct Hg' as [(-> & -> & _)|[_ Hg']].
      * cbn. destruct Hsi as [?|[? ?]]; [by left|right; auto].
      * destruct (Hsaw _ _ Hg') as [?|[? ?]]; [by left|right; auto].
    + intros e He. destruct (gErr st) as [e0|] eqn:Hg0.
      * injection He as <-. destruct (Herr e0 eq_refl) as [k Hk]. exists k.
        eapply Hkeep; eauto; cbn; lia.
      * subst ret. exists i.
        destruct Hcause as [Hc|[? [=]]].
        destruct Hsi as [->|[_ ?]]; [|congruence].
        by apply list_lookup_insert_eq.
Qed.

Lemma orderly_exec sched st :
  forallb is_Run sched = true -> orderly st -> orderly (exec tasks sched st).
Proof.
  apply (exec_invariant_on tasks is_Run orderly).
  intros s ev s' Hev Ho Htr. exact (orderly_trans s ev s' Hev Ho Htr).
Qed.

End RunFacts.

(* ===================================================================== *)
(** ** What the timer and a late cancellation cannot change *)
(* ===================================================================== *)

Section Simulations.
Context `{Types}.
Variable tasks : list asyncHolder.
Implicit Types (st : state) (sched : list event).

(** Only the event [TimerFires] looks at the timer. *)
Lemma step_with_timer ev b st :
  is_TimerFires ev = false ->
  step tasks ev (with_timer b st) = with_timer b (step tasks ev st).
Proof.
  intros Hev. unfold step. cbn [crashed with_timer].
  destruct (crashed st); [reflexivity|].
  destruct ev as [i| |e]; [|discriminate Hev|reflexivity].
  cbn [pool with_timer].
  destruct (tasks !! i) as [t|]; [|reflexivity].
  destruct (pool st !! i) as [g|]; [|reflexivity].
  destruct g as [|res err|res err|seen ret|seen ret]; cbn [run_goroutine].
  - by destruct (fun_ t tt).
  - cbn [ctxErr with_timer]. by destruct (select_Done (ctxErr st)).
  - cbn [mem with_timer]. by destruct (assign_and_return (dest t) res err (mem st)).
  - unfold leave_group, errOnce. cbn [gErr with_timer].
    destruct ret, (gErr st) eqn:E; cbn; rewrite ?E; reflexivity.
  - reflexivity.
Qed.

Lemma exec_with_timer sched b st :
  forallb (fun ev => negb (is_TimerFires ev)) sched = true ->
  exec tasks sched (with_timer b st) = with_timer b (exec tasks sched st).
Proof.
  revert st. induction sched as [|ev sched IH]; intros st Hs; [done|].
  cbn in Hs. apply andb_prop in Hs as [Hev Hs].
  rewrite !exec_cons, step_with_timer by (by destruct (is_TimerFires ev)).
  by apply IH.
Qed.

(** Past the check points, nothing reads the context any more. *)
Lemma checked_trans st ev st' :
  checked st -> trans tasks st ev st' -> checked st'.
Proof.
  intros Hc Htr i g' Hg'.
  pose proof (stage_trans tasks st ev st' i Htr) as Hmono.
  pose proof (trans_length tasks st ev st' Htr) as Hlen.
  assert (Hi : i < length (pool st)).
  { rewrite <- Hlen. eapply lookup_lt_Some; eauto. }
  destruct (lookup_lt_is_Some_2 _ _ Hi) as [g Hg].
  specialize (Hc _ _ Hg).
  rewrite (stage_at_Some _ _ _ Hg), (stage_at_Some _ _ _ Hg') in Hmono. lia.
Qed.

Lemma step_alike ev st1 st2 :
  alike st1 st2 -> checked st1 ->
  alike (step tasks ev st1) (if is_Run ev then step tasks ev st2 else st2).
Proof.
  intros (Hm & Hg & Hp & Ho & Hc) Hch. unfold step. rewrite <- Hc.
  destruct (crashed st1) eqn:Hcr.
  { destruct (is_Run ev); repeat split; congruence. }
  destruct ev as [i| |e]; cbn [is_Run].
  - rewrite <- Hp.
    destruct (tasks !! i) as [t|]; [|repeat split; cbn; congruence].
    destruct (pool st1 !! i) as [g|] eqn:Hgi; [|repeat split; cbn; congruence].
    pose proof (Hch _ _ Hgi) as Hst.
    destruct g as [|res err|res err|seen ret|seen ret]; cbn in Hst; try lia;
      cbn [run_goroutine].
    + rewrite <- Hm.
      destruct (assign_and_return (dest t) res err (mem st1)) as [ret h'|];
        repeat split; cbn; congruence.
    + unfold leave_group. repeat split; cbn;
        rewrite ?errOnce_mem, ?errOnce_gErr, ?errOnce_pool, ?errOnce_order,
                ?errOnce_crashed, ?Hg; congruence.
    + repeat split; cbn; congruence.
  - destruct (timer st1); repeat split; cbn; congruence.
  - repeat split; cbn; congruence.
Qed.

Lemma exec_alike sched st1 st2 :
  alike st1 st2 -> checked st1 ->
  alike (exec tasks sched st1) (exec tasks (List.filter is_Run sched) st2).
Proof.
  revert st1 st2. induction sched as [|ev sched IH]; intros st1 st2 Ha Hch; [done|].
  rewrite exec_cons. cbn [List.filter].
  pose proof (step_alike ev st1 st2 Ha Hch) as Ha'.
  assert (Hch' : checked (step tasks ev st1))
    by (eapply checked_trans; [exact Hch|apply step_trans]).
  destruct (is_Run ev); [rewrite exec_cons|]; by apply IH.
Qed.

Lemma filter_drain n : List.filter is_Run (drain n) = drain n.
Proof.
  induction n as [|n IH]; [reflexivity|].
  by rewrite drain_S, List.filter_app, IH.
Qed.

End Simulations.

(* ===================================================================== *)
(** ** Further properties of Go *)
(* ===================================================================== *)

Section MoreProperties.
Context `{Types}.
Implicit Types (a : async) (ctx : Context) (sched : list event) (h : heap).
Implicit Types (t : asyncHolder) (v r : Value) (x : addr) (e : error).

Lemma distinct_writes a :
  NoDup (omap slot (funcs a)) ->
  forall i j ti tj x v w,
    funcs a !! i = Some ti -> funcs a !! j = Some tj ->
    writes ti = Some (x, v) -> writes tj = Some (x, w) -> i = j.
Proof.
  intros Hnd i j ti tj x v w Hi Hj Hwi Hwj.
  eapply (NoDup_omap_lookup slot); eauto using writes_slot.
Qed.

Lemma start_stage a ctx h i : stage_at (start a ctx h) i = 0.
Proof.
  unfold stage_at. rewrite start_pool.
  destruct (replicate _ _ !! i) as [g|] eqn:Hg; [|done].
  by apply lookup_replicate in Hg as [-> _].
Qed.

Lemma runs_never_fire sched :
  forallb is_Run sched = true ->
  forallb (fun ev => negb (is_TimerFires ev)) sched = true.
Proof.
  induction sched as [|ev sched IH]; [done|]. cbn.
  intros [Hev Hs]%andb_prop. rewrite IH by done. by destruct ev.
Qed.

Lemma Go_state_landed a ctx sched h :
  NoDup (omap slot (funcs a)) -> landed (funcs a) (Go_state a ctx sched h).
Proof.
  intros Hnd. apply landed_exec.
  - by apply distinct_writes.
  - apply start_sound.
  - intros i t g x v _. rewrite start_pool. intros [-> _]%lookup_replicate. discriminate.
Qed.

Lemma start_orderly a ctx sched h :
  never_cancelled a ctx sched -> orderly (start a ctx h).
Proof.
  intros Hnc. pose proof (start_calm a ctx sched h Hnc) as Hc.
  constructor.
  - left. apply (calm_ctx _ _ _ Hc).
  - left. apply (calm_ctx _ _ _ Hc).
  - intros i g. rewrite start_pool. intros [-> _]%lookup_replicate. by left.
  - intros e. by rewrite start_gErr.
Qed.

Lemma Go_state_orderly a ctx sched h :
  never_cancelled a ctx sched -> orderly (Go_state a ctx sched h).
Proof.
  intros Hnc. apply orderly_exec.
  - rewrite forallb_app, drain_runs, andb_true_r. apply Hnc.
  - by eapply start_orderly.
Qed.

Lemma first_error_none_elem (l : list (nat * option error)) i ret :
  first_error (map snd l) = None -> (i, ret) ∈ l -> ret = None.
Proof.
  intros Hn Hin. destruct ret as [e|]; [|done].
  destruct (first_error_elem _ _ _ Hin) as [e' He']. congruence.
Qed.

(** What a closure can return: the cancellation error if it saw the
    context done, else the wrapped binding error if the binding fails, else
    the error of the operation. *)
Lemma closure_returns_inv t seen ret :
  closure_returns t seen ret ->
  match seen with
  | Some c => ret = Some (Errorf_w msg_cancelled c)
  | None =>
      (bind_fails (dest t) (fun_ t tt).1 = false /\ ret = (fun_ t tt).2) \/
      (bind_fails (dest t) (fun_ t tt).1 = true /\
       exists assignErr, ret = Some (Errorf_w msg_assign assignErr))
  end.
Proof.
  intros (hx & hy & Hb). unfold task_body in Hb.
  destruct (fun_ t tt) as [res err]. destruct seen as [c|]; cbn in Hb |- *.
  - congruence.
  - destruct (bind_fails (dest t) res) eqn:Hbf.
    + right. split; [done|].
      destruct (assign_and_return_fails _ _ err hx Hbf) as (ae & _ & Hr).
      exists ae. congruence.
    + left. split; [done|].
      destruct (assign_and_return_passes _ _ err hx Hbf) as (h' & Hr). congruence.
Qed.

Lemma closure_of_failing t seen ret :
  fails t -> closure_returns t seen ret -> exists e, ret = Some e.
Proof.
  intros Hf Hc. apply closure_returns_inv in Hc.
  destruct seen as [c|]; [eauto|].
  destruct Hc as [[Hb ->]|[_ [ae ->]]]; [|eauto].
  destruct Hf as [Hf|Hf]; [|congruence].
  destruct ((fun_ t tt).2); [eauto|done].
Qed.

(** X4, a timeout that does not expire.  For a batch without timeout [a], a
    positive timeout whose timer does not fire during the run changes
    nothing: [Go] returns the same error and leaves the same variables as
    without it, whatever the caller's context does. *)
Theorem timeout_without_effect a d ctx sched h :
  timeout a = None -> (0 < d)%Z ->
  forallb (fun ev => negb (is_TimerFires ev)) sched = true ->
  Go (WithTimeout d a) ctx sched h = Go a ctx sched h.
Proof.
  intros Ht Hd Hs. destruct a as [fs tmo]. cbn in Ht. subst tmo.
  assert (Hstart : exists b, start (WithTimeout d (mkAsync fs None)) ctx h =
                             with_timer b (start (mkAsync fs None) ctx h)).
  { unfold start, WithTimeout, WithTimeout_ctx. cbn.
    destruct (Err ctx) as [e|]; [by exists false|].
    destruct (Z.leb_spec d 0); [lia|]. by exists true. }
  destruct Hstart as [b Hstart].
  unfold Go, Go_state. cbn [funcs WithTimeout]. rewrite Hstart, exec_with_timer.
  - reflexivity.
  - rewrite forallb_app, Hs. cbn. apply runs_never_fire, drain_runs.
Qed.

Lemma Go_filter_late a ctx pre rest h :
  (forall i, i < length (funcs a) -> 2 <= turns i pre) ->
  Go a ctx (pre ++ rest) h = Go a ctx (pre ++ List.filter is_Run rest) h.
Proof.
  intros Hturns.
  set (S0 := exec (funcs a) pre (start a ctx h)).
  assert (Hs : sound (funcs a) S0) by apply sound_exec, start_sound.
  assert (Hch : checked S0).
  { intros i g Hg.
    assert (Hi : i < length (funcs a)).
    { rewrite <- (sound_pool _ _ Hs). eapply lookup_lt_Some; eauto. }
    pose proof (stage_exec_ge (funcs a) pre (start a ctx h) i (start_sound a ctx h) Hi) as Hge.
    fold S0 in Hge. rewrite (stage_at_Some _ _ _ Hg), start_stage in Hge.
    specialize (Hturns i Hi). lia. }
  assert (Hal : alike (exec (funcs a) (rest ++ drain (length (funcs a))) S0)
                      (exec (funcs a) (List.filter is_Run rest ++ drain (length (funcs a))) S0)).
  { rewrite <- (filter_drain (length (funcs a))) at 2.
    rewrite <- List.filter_app. apply exec_alike; [by repeat split|exact Hch]. }
  unfold Go, Go_state. rewrite <- !app_assoc, !(exec_app _ pre). fold S0.
  destruct Hal as (-> & -> & _ & _ & ->). reflexivity.
Qed.

(** X5, late cancellation.  Once every goroutine has had two turns, so that
    it is past its check point, nothing reads the context any more: a
    cancellation by the caller or a timer that fires from then on changes
    neither the error [Go] returns nor the variables. *)
Theorem late_cancellation_ignored a ctx pre rest h :
  (forall i, i < length (funcs a) -> 2 <= turns i pre) ->
  Go a ctx (pre ++ rest) h = Go a ctx (pre ++ List.filter is_Run rest) h.
Proof. apply Go_filter_late. Qed.

(** X6, cancellation before the check points.  While no goroutine has had
    more than one turn (each has at most returned from its operation), let
    the caller cancel the context, or the timer of the configured timeout
    fire, for the first time.  Then every closure returns the cancellation
    error: [Go] returns it, wrapping the caller's error or
    [context.DeadlineExceeded], and no variable is written, although every
    operation runs to its end. *)
Theorem cancellation_before_check_points a ctx pre ev rest h c :
  funcs a <> [] -> never_cancelled a ctx pre ->
  (forall i, turns i pre <= 1) ->
  cause_of a ev = Some c ->
  Go a ctx (pre ++ ev :: rest) h = Returns (Some (Errorf_w msg_cancelled c)) h.
Proof.
  intros Hne Hnc Hturns Hcause.
  set (S0 := exec (funcs a) pre (start a ctx h)).
  assert (Hs : sound (funcs a) S0) by apply sound_exec, start_sound.
  assert (Hst : forall i, stage_at S0 i <= 1).
  { intros i. apply stage_exec_le; [apply start_stage|apply Hturns]. }
  assert (Hun : mem S0 = h /\ gErr S0 = None).
  { destruct (untouched_exec (funcs a) h pre (start a ctx h)) as [Hl|[i Hi]].
    - left. by rewrite start_mem, start_gErr.
    - exact Hl.
    - fold S0 in Hi. specialize (Hst i). lia. }
  destruct Hun as [Hm Hg].
  assert (Hc0 : ctxErr S0 = None).
  { assert (Ho : orderly S0).
    { apply orderly_exec; [apply Hnc|by eapply start_orderly]. }
    destruct (orderly_cause _ Ho) as [?|[? Hsome]]; [done|congruence]. }
  assert (Htm : timeout a <> None -> timer S0 = true).
  { intros Ht. unfold S0. rewrite exec_timer, start_timer.
    destruct Hnc as (Hctx & Hd & _). destruct (timeout a) as [d|]; [|done].
    rewrite Hctx. unfold WithTimeout_ctx. specialize (Hd d eq_refl).
    destruct (Z.leb_spec d 0); [lia|done]. }
  assert (Hab : aborted c h (step (funcs a) ev S0)).
  { assert (Hstep : step (funcs a) ev S0 = with_ctx (Some c) S0).
    { unfold step. rewrite (sound_alive _ _ Hs).
      destruct ev as [i| |c']; cbn in Hcause.
      - discriminate.
      - destruct (timeout a) eqn:Ht; [|discriminate]. injection Hcause as <-.
        rewrite Htm by done. by rewrite Hc0.
      - injection Hcause as ->. by rewrite Hc0. }
    rewrite Hstep. constructor; cbn; auto.
    intros i g Hgi. specialize (Hst i). rewrite (stage_at_Some _ _ _ Hgi) in Hst.
    destruct g; cbn in Hst |- *; try done; lia. }
  rewrite cons_middle, app_assoc.
  apply Go_aborted; [exact Hne|]. by rewrite exec_app.
Qed.

Lemma Go_reports_failure a ctx sched h k t :
  funcs a !! k = Some t -> fails t ->
  exists e h', Go a ctx sched h = Returns (Some e) h'.
Proof.
  intros Hk Hf.
  destruct (Go_exited a ctx sched h k t Hk) as (seen & ret & _ & Hc & Hin).
  destruct (closure_of_failing t seen ret Hf Hc) as [e0 ->].
  destruct (first_error_elem _ _ _ Hin) as [e He].
  exists e, (mem (Go_state a ctx sched h)). by rewrite Go_returns, He.
Qed.

(** X7, failures are never swallowed.  If the operation of some task
    returns an error, or its binding is rejected, then [Go] returns a
    non-nil error, under every context and every schedule. *)
Theorem failure_is_reported a ctx sched h k t :
  funcs a !! k = Some t -> fails t ->
  exists e h', Go a ctx sched h = Returns (Some e) h'.
Proof. apply Go_reports_failure. Qed.

(** X8, success means that everything was done.  If [Go] returns nil then
    every task of the batch went through: its operation returned no error,
    its goroutine found the context not cancelled and returned nil, its
    binding was accepted; with pairwise distinct slots, every value that a
    task had to store is in its slot. *)
Theorem success_means_all_done a ctx sched h h' :
  Go a ctx sched h = Returns None h' ->
  forall k t,
    funcs a !! k = Some t ->
    quiet t /\
    pool (Go_state a ctx sched h) !! k = Some (Exited None None) /\
    (NoDup (omap slot (funcs a)) ->
     forall x v, writes t = Some (x, v) -> h' !! x = Some v).
Proof.
  intros HGo k t Hk. rewrite Go_returns in HGo. injection HGo as Hfirst Hmem.
  destruct (Go_exited a ctx sched h k t Hk) as (seen & ret & Hg & Hc & Hin).
  assert (ret = None) as -> by (eapply first_error_none_elem; eauto).
  pose proof (closure_returns_inv _ _ _ Hc) as Hinv.
  destruct seen as [c|]; [discriminate Hinv|].
  destruct Hinv as [[Hb Hr]|[_ [ae [=]]]].
  split; [by split|]. split; [exact Hg|].
  intros Hnd x v Hw. subst h'.
  eapply (Go_state_landed a ctx sched h Hnd); eauto.
Qed.

(** X9, no rollback.  A value stored by a goroutine that took the default
    branch stays in its slot (slots being pairwise distinct) whatever
    happens to the rest of the batch: it is there when [Go] returns, also
    when [Go] returns the error of another task or a cancellation. *)
Theorem no_rollback a ctx sched h k t ret x v :
  NoDup (omap slot (funcs a)) ->
  funcs a !! k = Some t ->
  pool (Go_state a ctx sched h) !! k = Some (Exited None ret) ->
  writes t = Some (x, v) ->
  exists err h', Go a ctx sched h = Returns err h' /\ h' !! x = Some v.
Proof.
  intros Hnd Hk Hg Hw. eexists _, _. split; [apply Go_returns|].
  eapply (Go_state_landed a ctx sched h Hnd); eauto.
Qed.

(** X10, where the values come from.  For a batch whose slots are pairwise
    distinct (two tasks that share a variable would race on it): when [Go]
    returns, under any context and schedule and whatever it returns, every
    variable holds either what it held before or the value that the task of
    the batch whose destination points to it produced: [Go] writes nothing
    but results into their slots. *)
Theorem variables_come_from_tasks a ctx sched h :
  NoDup (omap slot (funcs a)) ->
  exists err h',
    Go a ctx sched h = Returns err h' /\
    forall y,
      h' !! y = h !! y \/
      exists t v, t ∈ funcs a /\ writes t = Some (y, v) /\ h' !! y = Some v.
Proof.
  intros _. eexists _, _. split; [apply Go_returns|].
  apply (provenance_exec (funcs a) h); [apply start_sound|].
  intros y. left. by rewrite start_mem.
Qed.

Lemma Go_error_origin a ctx sched h e h' :
  never_cancelled a ctx sched ->
  Go a ctx sched h = Returns (Some e) h' ->
  (exists k t,
     funcs a !! k = Some t /\
     pool (Go_state a ctx sched h) !! k = Some (Exited None (Some e)) /\
     ((bind_fails (dest t) (fun_ t tt).1 = false /\ (fun_ t tt).2 = Some e) \/
      (bind_fails (dest t) (fun_ t tt).1 = true /\
       exists assignErr, e = Errorf_w msg_assign assignErr))) /\
  (forall j c ret,
     pool (Go_state a ctx sched h) !! j = Some (Exited (Some c) ret) ->
     c = Canceled /\ ret = Some (Errorf_w msg_cancelled Canceled)).
Proof.
  intros Hnc HGo.
  pose proof (Go_state_orderly a ctx sched h Hnc) as Ho.
  pose proof (Go_state_sound a ctx sched h) as Hs.
  split.
  - unfold Go in HGo. rewrite (sound_alive _ _ Hs) in HGo. injection HGo as Hg _.
    destruct (orderly_err _ Ho e Hg) as [k Hk]. exists k.
    assert (Hi : k < length (funcs a)).
    { rewrite <- (sound_pool _ _ Hs). eapply lookup_lt_Some; eauto. }
    destruct (lookup_lt_is_Some_2 _ _ Hi) as [t Ht]. exists t.
    split; [exact Ht|]. split; [exact Hk|].
    pose proof (closure_returns_inv _ _ _ (sound_follows _ _ Hs _ _ _ Ht Hk)) as Hinv.
    cbn in Hinv. destruct Hinv as [[Hb Hr]|[Hb [ae [= ->]]]]; [left|right]; eauto.
  - intros j c ret Hj.
    destruct (orderly_saw _ Ho _ _ Hj) as [[=]|[[= ->] _]]. split; [done|].
    assert (Hi : j < length (funcs a)).
    { rewrite <- (sound_pool _ _ Hs). eapply lookup_lt_Some; eauto. }
    destruct (lookup_lt_is_Some_2 _ _ Hi) as [t Ht].
    exact (closure_returns_inv _ _ _ (sound_follows _ _ Hs _ _ _ Ht Hj)).
Qed.

(** X11, the error is a task's own failure.  Under a context that is never
    cancelled from outside, the error that [Go] returns is never the
    cancellation that the errgroup itself triggers: it comes from a
    goroutine that found the context not cancelled, and is the error of
    that task's operation, verbatim, or its wrapped binding error.  The
    goroutines that did see the context done saw [context.Canceled]. *)
Theorem error_is_a_task_failure a ctx sched h e h' :
  never_cancelled a ctx sched ->
  Go a ctx sched h = Returns (Some e) h' ->
  (exists k t,
     funcs a !! k = Some t /\
     pool (Go_state a ctx sched h) !! k = Some (Exited None (Some e)) /\
     ((bind_fails (dest t) (fun_ t tt).1 = false /\ (fun_ t tt).2 = Some e) \/
      (bind_fails (dest t) (fun_ t tt).1 = true /\
       exists assignErr, e = Errorf_w msg_assign assignErr))) /\
  (forall j c ret,
     pool (Go_state a ctx sched h) !! j = Some (Exited (Some c) ret) ->
     c = Canceled /\ ret = Some (Errorf_w msg_cancelled Canceled)).
Proof. apply Go_error_origin. Qed.

(** X12, a single failing task.  In a batch of any size in which one task
    fails (its operation returns an error or its binding is rejected) and
    every other task succeeds, under a context never cancelled from
    outside: whatever the schedule, [Go] returns the failure of that very
    task, which is the error of its operation, verbatim, when its binding
    is accepted, and its wrapped binding error otherwise. *)
Theorem single_failure_reported a ctx sched h k t :
  never_cancelled a ctx sched ->
  funcs a !! k = Some t -> fails t ->
  (forall j t', j <> k -> funcs a !! j = Some t' -> quiet t') ->
  exists e h',
    Go a ctx sched h = Returns (Some e) h' /\
    pool (Go_state a ctx sched h) !! k = Some (Exited None (Some e)) /\
    ((bind_fails (dest t) (fun_ t tt).1 = false /\ (fun_ t tt).2 = Some e) \/
     (bind_fails (dest t) (fun_ t tt).1 = true /\
      exists assignErr, e = Errorf_w msg_assign assignErr)).
Proof.
  intros Hnc Hk Hf Hq.
  destruct (Go_reports_failure a ctx sched h k t Hk Hf) as (e & h' & HGo).
  exists e, h'. split; [exact HGo|].
  destruct (Go_error_origin a ctx sched h e h' Hnc HGo)
    as [(k' & t' & Hk' & Hg & Hwhy) _].
  destruct (decide (k' = k)) as [->|Hne].
  - assert (t' = t) as -> by congruence. by split.
  - destruct (Hq k' t' Hne Hk') as [Herr Hb].
    destruct Hwhy as [[_ ?]|[? _]]; congruence.
Qed.

Lemma writer_dec (l : list asyncHolder) y :
  (exists t v, t ∈ l /\ writes t = Some (y, v)) \/
  (forall t x v, t ∈ l -> writes t = Some (x, v) -> x <> y).
Proof.
  induction l as [|t0 l IH].
  - right. intros t x v Hin. by apply elem_of_nil in Hin.
  - destruct IH as [(t & v & Hin & Hw)|Hno].
    { left. exists t, v. split; [by right|done]. }
    destruct (writes t0) as [[x0 v0]|] eqn:Hw0.
    + destruct (decide (x0 = y)) as [->|Hne].
      * left. exists t0, v0. split; [by left|done].
      * right. intros t x v [->|Hin]%elem_of_cons Hw; [congruence|eauto].
    + right. intros t x v [->|Hin]%elem_of_cons Hw; [congruence|eauto].
Qed.

(** X13, the outcome of a successful batch does not depend on the schedule.
    For a batch whose tasks all succeed, with pairwise distinct slots and a
    context never cancelled from outside, any two schedules give the same
    result: nil and the same value in every variable. *)
Theorem success_is_schedule_independent a ctx sched1 sched2 h :
  never_cancelled a ctx sched1 -> never_cancelled a ctx sched2 ->
  (forall t, t ∈ funcs a -> quiet t) ->
  NoDup (omap slot (funcs a)) ->
  Go a ctx sched1 h = Go a ctx sched2 h.
Proof.
  intros Hnc1 Hnc2 Hq Hnd.
  destruct (Go_calm a ctx sched1 h Hnc1 Hq (distinct_writes a Hnd)) as (h1 & -> & Hw1 & Hf1).
  destruct (Go_calm a ctx sched2 h Hnc2 Hq (distinct_writes a Hnd)) as (h2 & -> & Hw2 & Hf2).
  f_equal. apply map_eq. intros y.
  destruct (writer_dec (funcs a) y) as [(t & v & Hin & Hw)|Hno].
  - by rewrite (Hw1 t y v Hin Hw), (Hw2 t y v Hin Hw).
  - by rewrite (Hf1 y Hno), (Hf2 y Hno).
Qed.

End MoreProperties.

(* ===================================================================== *)
(** ** One unit in a batch of any size *)
(* ===================================================================== *)

Section Anchor.
Context `{Types}.
Variable tasks : list asyncHolder.
Variables (k : nat) (t : asyncHolder) (x : addr) (h0 : heap) (ret0 : option error).
Hypothesis Hk : tasks !! k = Some t.
Hypothesis Hnone : forall t' v, t' ∈ tasks -> writes t' <> Some (x, v).
Hypothesis Hbody : forall hx,
  hx !! x = h0 !! x -> exists hy, task_body None t hx = Returns ret0 hy.

Lemma anchored_trans st ev st' :
  sound tasks st -> anchored k x h0 ret0 st -> trans tasks st ev st' ->
  anchored k x h0 ret0 st'.
Proof.
  intros Hs [Hm Hr] Htr.
  destruct Htr as [ev| |e|i t0 res err Ht Hg Hf|i res err c Hg Hc|i res err Hg Hc
                   |i t0 res err ret h' Ht Hg Ha|i seen ret Hg];
    try exact (conj Hm Hr).
  - split; [exact Hm|]. intros ret' [Hg'|Hg']; cbn in Hg';
      apply lookup_set_goroutine in Hg';
      (destruct Hg' as [(_ & [=] & _)|[_ Hg']]); eauto.
  - split; [exact Hm|]. intros ret' [Hg'|Hg']; cbn in Hg';
      apply lookup_set_goroutine in Hg';
      (destruct Hg' as [(_ & [=] & _)|[_ Hg']]); eauto.
  - split; [exact Hm|]. intros ret' [Hg'|Hg']; cbn in Hg';
      apply lookup_set_goroutine in Hg';
      (destruct Hg' as [(_ & [=] & _)|[_ Hg']]); eauto.
  - pose proof (sound_follows _ _ Hs _ _ _ Ht Hg) as Hf. cbn in Hf.
    pose proof (assign_and_return_writes _ _ _ _ _ _ Hf Ha) as Hh'.
    split.
    + cbn [mem set_goroutine with_mem]. rewrite Hh'.
      destruct (writes t0) as [[y v]|] eqn:Hw; [|exact Hm].
      rewrite lookup_insert_ne; [exact Hm|].
      intros ->. eapply Hnone; [|exact Hw]. eapply list_elem_of_lookup_2; eauto.
    + intros ret' [Hg'|Hg']; cbn in Hg'; apply lookup_set_goroutine in Hg'.
      * destruct Hg' as [(-> & [= <-] & _)|[_ Hg']]; [|eauto].
        assert (t0 = t) as -> by congruence.
        destruct (Hbody (mem st) Hm) as [hy Hb].
        unfold task_body in Hb. rewrite Hf in Hb. cbn in Hb. congruence.
      * destruct Hg' as [(_ & [=] & _)|[_ Hg']]; eauto.
  - split.
    + unfold leave_group. cbn. by rewrite errOnce_mem.
    + intros ret' [Hg'|Hg']; unfold leave_group in Hg'; cbn in Hg';
        rewrite errOnce_pool in Hg'; apply lookup_set_goroutine in Hg'.
      * destruct Hg' as [(_ & [=] & _)|[_ Hg']]; eauto.
      * destruct Hg' as [(-> & [= <- <-] & _)|[_ Hg']]; eauto.
Qed.

Lemma anchored_exec sched st :
  sound tasks st -> anchored k x h0 ret0 st ->
  anchored k x h0 ret0 (exec tasks sched st).
Proof.
  intros Hs Ha.
  apply (exec_invariant tasks (fun s => sound tasks s /\ anchored k x h0 ret0 s));
    [|by split].
  intros s ev s' [Hs' Ha'] Htr. split; [by eapply sound_trans|by eapply anchored_trans].
Qed.

End Anchor.

Section Units.
Context `{Types}.
Implicit Types (a : async) (ctx : Context) (sched : list event) (h : heap).
Implicit Types (t : asyncHolder) (v r : Value) (x : addr) (e : error).

(** With pairwise distinct slots, nothing is stored in the slot of a task
    that stores nothing itself. *)
Lemma slot_unwritten a k t x :
  NoDup (omap slot (funcs a)) ->
  funcs a !! k = Some t -> slot t = Some x -> writes t = None ->
  forall t' v, t' ∈ funcs a -> writes t' <> Some (x, v).
Proof.
  intros Hnd Hk Hs Hw t' v Hin Hw'.
  apply list_elem_of_lookup_1 in Hin as [j Hj].
  assert (j = k) as ->.
  { eapply (NoDup_omap_lookup slot); eauto using writes_slot. }
  congruence.
Qed.

Lemma Go_anchored a ctx sched h k t x ret0 :
  funcs a !! k = Some t ->
  (forall t' v, t' ∈ funcs a -> writes t' <> Some (x, v)) ->
  (forall hx, hx !! x = h !! x -> exists hy, task_body None t hx = Returns ret0 hy) ->
  anchored k x h ret0 (Go_state a ctx sched h).
Proof.
  intros Hk Hnone Hbody. unfold Go_state.
  apply (anchored_exec (funcs a) k t x h ret0 Hk Hnone Hbody); [apply start_sound|].
  split; [by rewrite start_mem|].
  intros ret [Hg|Hg]; rewrite start_pool in Hg;
    apply lookup_replicate in Hg as [[=] _].
Qed.

(** A variable that no task of the batch stores into is as it was when
    [Go] returns. *)
Lemma Go_frame a ctx sched h y :
  (forall t' v, t' ∈ funcs a -> writes t' <> Some (y, v)) ->
  mem (Go_state a ctx sched h) !! y = h !! y.
Proof.
  intros Hnone.
  assert (Hp : provenance (funcs a) h (Go_state a ctx sched h)).
  { apply provenance_exec; [apply start_sound|]. intros z. left. by rewrite start_mem. }
  destruct (Hp y) as [Hy|(t' & v & Hin & Hw & _)]; [exact Hy|].
  by destruct (Hnone t' v Hin).
Qed.

(** The failure of a unit surfaces, once it is known what its goroutine
    returns on the default branch. *)
Lemma Go_surfaces a ctx sched h k t E :
  funcs a !! k = Some t -> fails t ->
  (forall ret,
     pool (Go_state a ctx sched h) !! k = Some (Exited None ret) -> ret = Some E) ->
  surfaces a ctx sched h k E.
Proof.
  intros Hk Hf Hret. unfold surfaces.
  pose proof (Go_state_sound a ctx sched h) as Hs.
  pose proof (Go_returns a ctx sched h) as HGo.
  split; [|split].
  - destruct (Go_reports_failure a ctx sched h k t Hk Hf) as (e & h' & He).
    exists e. rewrite He. rewrite He in HGo. congruence.
  - intros ret Hg. specialize (Hret ret Hg). subst ret. split; [reflexivity|].
    assert (Hin : (k, Some E) ∈ order (Go_state a ctx sched h)).
    { apply (sound_order _ _ Hs). eauto. }
    apply list_elem_of_split in Hin as (before & after & Hord).
    exists before, after. split; [exact Hord|]. intros Hb.
    by rewrite HGo, Hord, map_app, first_error_app, Hb.
  - intros Hq Hnc.
    destruct (Go_reports_failure a ctx sched h k t Hk Hf) as (e & h' & He).
    destruct (Go_error_origin a ctx sched h e h' Hnc He)
      as [(k' & t' & Hk' & Hg & Hwhy) _].
    assert (k' = k) as ->.
    { destruct (decide (k' = k)) as [->|Hne]; [done|].
      destruct (Hq k' t' Hne Hk') as [Herr Hb].
      destruct Hwhy as [[_ ?]|[? _]]; congruence. }
    specialize (Hret _ Hg). injection Hret as ->.
    rewrite He. rewrite He in HGo. congruence.
Qed.

(** When every task succeeds and no goroutine finds the context done at
    its check point, [Go] returns nil. *)
Lemma Go_unseen a ctx sched h :
  (forall t, t ∈ funcs a -> quiet t) ->
  unseen (Go_state a ctx sched h) ->
  Go a ctx sched h = Returns None (mem (Go_state a ctx sched h)).
Proof.
  intros Hq Hun.
  pose proof (Go_state_sound a ctx sched h) as Hs.
  rewrite Go_returns, first_error_none; [reflexivity|].
  intros i ret Hin. apply (sound_order _ _ Hs) in Hin as [seen Hg].
  pose proof (Hun _ _ Hg) as Hseen. cbn in Hseen. subst seen.
  assert (Hi : i < length (funcs a)).
  { rewrite <- (sound_pool _ _ Hs). eapply lookup_lt_Some; eauto. }
  destruct (lookup_lt_is_Some_2 _ _ Hi) as [t Ht].
  pose proof (closure_returns_inv _ _ _ (sound_follows _ _ Hs _ _ _ Ht Hg)) as Hinv.
  cbn in Hinv.
  destruct (Hq t (list_elem_of_lookup_2 _ _ _ Ht)) as [Herr Hb].
  destruct Hinv as [[_ ->]|[Hb' _]]; congruence.
Qed.

(** Under a context never cancelled from outside, with tasks that all
    succeed, no goroutine finds the context done. *)
Lemma Go_never_seen a ctx sched h :
  never_cancelled a ctx sched ->
  (forall t, t ∈ funcs a -> quiet t) ->
  unseen (Go_state a ctx sched h) /\
  Go a ctx sched h = Returns None (mem (Go_state a ctx sched h)).
Proof.
  intros Hnc Hq.
  pose proof (Go_state_orderly a ctx sched h Hnc) as Ho.
  pose proof (Go_state_sound a ctx sched h) as Hs.
  assert (Hnil : gErr (Go_state a ctx sched h) = None).
  { destruct (gErr (Go_state a ctx sched h)) as [e|] eqn:He; [|done].
    destruct (orderly_err _ Ho e He) as [j Hj].
    assert (Hi : j < length (funcs a)).
    { rewrite <- (sound_pool _ _ Hs). eapply lookup_lt_Some; eauto. }
    destruct (lookup_lt_is_Some_2 _ _ Hi) as [t Ht].
    pose proof (closure_returns_inv _ _ _ (sound_follows _ _ Hs _ _ _ Ht Hj)) as Hinv.
    cbn in Hinv.
    destruct (Hq t (list_elem_of_lookup_2 _ _ _ Ht)) as [Herr Hb].
    destruct Hinv as [[_ ?]|[Hb' _]]; congruence. }
  assert (Hun : unseen (Go_state a ctx sched h)).
  { intros j g Hg. destruct (orderly_saw _ Ho _ _ Hg) as [?|[_ Hc]]; [done|].
    destruct (orderly_cause _ Ho) as [?|[e He]]; congruence. }
  split; [exact Hun|]. by apply Go_unseen.
Qed.

End Units.

(* ===================================================================== *)
(** ** Timeout, destination validation, type mismatch and nil results *)
(* ===================================================================== *)

Section UnitProperties.
Context `{Types}.
Implicit Types (a : async) (ctx : Context) (sched : list event) (h : heap).
Implicit Types (t : asyncHolder) (v r : Value) (x : addr) (e : error).

Lemma bind_fails_fails t : bind_fails (dest t) (fun_ t tt).1 = true -> fails t.
Proof. intros Hb. by right. Qed.

Lemma task_body_fails t r err h e :
  fun_ t tt = (Some r, err) ->
  (forall err', assign_and_return (dest t) (Some r) err' h = Returns (Some e) h) ->
  task_body None t h = Returns (Some e) h.
Proof. intros Hf Ha. unfold task_body. rewrite Hf. cbn. apply Ha. Qed.

(** What [Go] makes of a unit whose binding [assignResult] rejects with an
    error that does not depend on the variables. *)
Lemma rejected_surfaces a ctx sched h k t v r err be :
  funcs a !! k = Some t -> dest t = Some v -> fun_ t tt = (Some r, err) ->
  (forall res h1, assignResult (Some v) res h1 = Returns (Some be) h1) ->
  (forall h1, task_body None t h1 = Returns (Some (Errorf_w msg_assign be)) h1) /\
  surfaces a ctx sched h k (Errorf_w msg_assign be).
Proof.
  intros Hk Hd Hf Hrej.
  assert (Hbody : forall h1,
             task_body None t h1 = Returns (Some (Errorf_w msg_assign be)) h1).
  { intros h1. apply (task_body_fails t r err h1 _ Hf). intros err'.
    rewrite Hd, assign_and_return_Some, Hrej. reflexivity. }
  split; [exact Hbody|].
  assert (Hfails : fails t).
  { right. rewrite Hf, Hd. cbn.
    destruct (rejects (Some v) r) eqn:Hr; [done|].
    assert (Hb : bind_fails (Some v) (Some r) = false) by exact Hr.
    destruct (assignResult_Some (Some v) r h) as [[Hr' _]|[_ (v' & x & _ & _ & _ & _ & Ha)]].
    - congruence.
    - rewrite Hrej in Ha. discriminate Ha. }
  apply (Go_surfaces a ctx sched h k t _ Hk Hfails).
  intros ret Hg.
  destruct (sound_follows _ _ (Go_state_sound a ctx sched h) _ _ _ Hk Hg)
    as (hx & hy & Hb).
  rewrite Hbody in Hb. congruence.
Qed.

(** C3, timeout, as the code has it.  A batch with a timeout [d] and at
    least one task, in particular with a sole task, called with a context
    that is not done, whose timer fires before any operation has returned
    and before the caller cancels (the operations take longer than [d]; a
    timeout that is not positive has expired when [Go] starts): whatever
    happens afterwards, [Go] returns the cancellation error that wraps
    [context.DeadlineExceeded], and no variable is written.
    [errors.Is(err, context.DeadlineExceeded)] holds for it and
    [errors.Is(err, context.Canceled)] does not, while the error that a
    cancellation by the caller with [context.Canceled] yields is classified
    the other way round.  An operation failure is returned as it is: the
    batch of a task whose operation returns the error [e], never cancelled,
    returns [e] itself, so that it is classified as deadline exceeded
    exactly when [e] is. *)
Theorem timeout_deadline_exceeded a ctx sched h :
  funcs a <> [] -> expires_first a ctx sched ->
  Go a ctx sched h = Returns (Some (Errorf_w msg_cancelled DeadlineExceeded)) h /\
  Is (Errorf_w msg_cancelled DeadlineExceeded) DeadlineExceeded = true /\
  Is (Errorf_w msg_cancelled DeadlineExceeded) Canceled = false /\
  Is (Errorf_w msg_cancelled Canceled) DeadlineExceeded = false /\
  Is (Errorf_w msg_cancelled Canceled) Canceled = true /\
  forall (dst : any) (fn : AsyncFunc) e tmo ctx' sched' h1,
    fn tt = (None, Some e) ->
    never_cancelled (mkAsync [mkHolder dst fn] tmo) ctx' sched' ->
    Go (mkAsync [mkHolder dst fn] tmo) ctx' sched' h1 = Returns (Some e) h1.
Proof.
  intros Hne (Hctx & d & Hd & Hexp).
  split; [|split; [done|split; [done|split; [done|split; [done|]]]]].
  2:{ intros dst fn e tmo ctx' sched' h1 Hf Hnc.
      rewrite (Go_solo _ tmo ctx' sched' h1 Hnc), (task_body_default _ _ _ _ _ Hf).
      unfold assign_and_return. by rewrite andb_false_r. }
  destruct (Z.leb_spec d 0) as [Hle|Hgt].
  - apply (Go_aborted a ctx [] sched h); [exact Hne|]. cbn.
    apply start_aborted. rewrite start_ctxErr, Hd, Hctx. unfold WithTimeout_ctx.
    destruct (Z.leb_spec d 0); [done|lia].
  - destruct Hexp as [Hle|[rest ->]]; [lia|].
    apply (Go_aborted a ctx [TimerFires] rest h); [exact Hne|].
    assert (Hc0 : ctxErr (start a ctx h) = None).
    { rewrite start_ctxErr, Hd, Hctx. unfold WithTimeout_ctx.
      destruct (Z.leb_spec d 0); [lia|done]. }
    assert (Ht0 : timer (start a ctx h) = true).
    { rewrite start_timer, Hd, Hctx. unfold WithTimeout_ctx.
      destruct (Z.leb_spec d 0); [lia|done]. }
    cbn. unfold step. rewrite start_crashed, Ht0, Hc0.
    constructor; cbn.
    + done.
    + apply start_mem.
    + intros i g. rewrite start_pool. intros [-> _]%lookup_replicate. exact I.
    + left. apply start_gErr.
Qed.

(** C5, destination validation, as the code has it.  For a task of a batch
    of any size whose destination is a non-nil interface and whose
    operation returns a non-nil result (with or without an error), the
    closure of [asyncTask] calls [assignResult] once it has found the
    context not cancelled at its check point.  If the destination is a nil
    pointer [assignResult] returns "destination pointer cannot be nil", if
    it is not a pointer it returns "destination must be a pointer, ...": in
    both cases it returns, whatever the result is, without a panic and
    without a write.  The closure then returns that error wrapped by
    "failed to assign result: " and has written nothing, and this failure
    surfaces through [Go] as far as the errgroup lets it: [Go] returns a
    non-nil error under every context and schedule; it returns this
    wrapped error when no goroutine returned an error before this one, and
    under every schedule when every other task succeeds and the context is
    never cancelled from outside. *)
Theorem destination_validation a ctx sched h k t v r err :
  funcs a !! k = Some t -> dest t = Some v -> fun_ t tt = (Some r, err) ->
  (Kind_of (typ v) = Pointer -> pointer_of (ptr v) = None ->
   (forall res h1,
      assignResult (Some v) res h1 =
        Returns (Some (errorString "destination pointer cannot be nil")) h1) /\
   (forall h1,
      task_body None t h1 =
        Returns (Some (Errorf_w "failed to assign result: "
                   (errorString "destination pointer cannot be nil"))) h1) /\
   surfaces a ctx sched h k
     (Errorf_w "failed to assign result: "
        (errorString "destination pointer cannot be nil"))) /\
  (Kind_of (typ v) <> Pointer ->
   exists msg,
     String.prefix "destination must be a pointer" msg = true /\
     (forall res h1,
        assignResult (Some v) res h1 = Returns (Some (errorString msg)) h1) /\
     (forall h1,
        task_body None t h1 =
          Returns (Some (Errorf_w "failed to assign result: " (errorString msg))) h1) /\
     surfaces a ctx sched h k
       (Errorf_w "failed to assign result: " (errorString msg))).
Proof.
  intros Hk Hd Hf. split.
  - intros Hkind Hp.
    assert (Hrej : forall res h1,
               assignResult (Some v) res h1 =
               Returns (Some (errorString msg_nil_pointer)) h1).
    { intros res h1. by apply assignResult_nil_pointer. }
    split; [exact Hrej|].
    exact (rejected_surfaces a ctx sched h k t v r err _ Hk Hd Hf Hrej).
  - intros Hkind. exists (msg_not_pointer (Some v)). split; [reflexivity|].
    assert (Hrej : forall res h1,
               assignResult (Some v) res h1 =
               Returns (Some (errorString (msg_not_pointer (Some v)))) h1).
    { intros res h1. by apply assignResult_not_pointer. }
    split; [exact Hrej|].
    exact (rejected_surfaces a ctx sched h k t v r err _ Hk Hd Hf Hrej).
Qed.

Lemma msg_mismatch_ext res (T : rtype) x h1 h2 :
  h1 !! x = h2 !! x -> msg_mismatch res T x h1 = msg_mismatch res T x h2.
Proof.
  intros Hx. unfold msg_mismatch, fmt_T_Interface. by rewrite Hx.
Qed.

Lemma writes_rejected t v r err :
  dest t = Some v -> fun_ t tt = (Some r, err) -> rejects (Some v) r = true ->
  writes t = None /\ bind_fails (dest t) (fun_ t tt).1 = true.
Proof.
  intros Hd Hf Hr. unfold writes, bind_fails. rewrite Hd, Hf. cbn [fst].
  by rewrite Hr.
Qed.

(** C6, type mismatch, as the code has it.  For a task of a batch of any
    size, with pairwise distinct slots, whose destination is a non-nil
    pointer and whose operation returns a non-nil value whose type is not
    assignable to the type the destination points to: [assignResult]
    returns the error "type mismatch: cannot assign ..." and leaves every
    variable as it was, the slot included (the check comes before the
    write); the closure, on its default branch, returns that error wrapped
    by "failed to assign result: " (so that [Unwrap] gives the mismatch
    back) and writes nothing.  When [Go] returns, under every context and
    schedule and whatever it returns, the slot holds the value it had, as
    does every variable that no task of the batch stores into.  The
    failure surfaces through [Go] as far as the errgroup lets it: [Go]
    returns a non-nil error in any case; it returns the wrapped mismatch
    when no goroutine returned an error before this one, and under every
    schedule when every other task succeeds and the context is never
    cancelled from outside. *)
Theorem type_mismatch_atomic a ctx sched h k t v r err x :
  funcs a !! k = Some t -> dest t = Some v -> fun_ t tt = (Some r, err) ->
  Kind_of (typ v) = Pointer -> pointer_of (ptr v) = Some x ->
  AssignableTo (typ r) (Elem_of (typ v)) = false ->
  NoDup (omap slot (funcs a)) ->
  exists msg,
    String.prefix "type mismatch: cannot assign " msg = true /\
    assignResult (Some v) (Some r) h = Returns (Some (errorString msg)) h /\
    (forall h1, exists msg1,
       String.prefix "type mismatch: cannot assign " msg1 = true /\
       assignResult (Some v) (Some r) h1 = Returns (Some (errorString msg1)) h1 /\
       task_body None t h1 =
         Returns (Some (Errorf_w "failed to assign result: " (errorString msg1))) h1) /\
    Unwrap (Errorf_w "failed to assign result: " (errorString msg)) =
      Some (errorString msg) /\
    surfaces a ctx sched h k
      (Errorf_w "failed to assign result: " (errorString msg)) /\
    exists ret h',
      Go a ctx sched h = Returns ret h' /\
      h' !! x = h !! x /\
      forall y, (forall t' w, t' ∈ funcs a -> writes t' <> Some (y, w)) ->
                h' !! y = h !! y.
Proof.
  intros Hk Hd Hf Hkind Hp Hna Hnd.
  assert (Hrej : rejects (Some v) r = true).
  { unfold rejects. rewrite Hna. apply orb_true_r. }
  set (T := Elem_of (typ v)).
  destruct (writes_rejected t v r err Hd Hf Hrej) as [Hw Hbf].
  assert (Hbody : forall h1,
             task_body None t h1 =
             Returns (Some (Errorf_w msg_assign
                        (errorString (msg_mismatch (Some r) T x h1)))) h1).
  { intros h1. apply (task_body_fails t r err h1 _ Hf). intros err'.
    rewrite Hd, assign_and_return_Some.
    by rewrite (assignResult_mismatch v x r h1 Hkind Hp Hna). }
  assert (Hslot : slot t = Some x) by (unfold slot; by rewrite Hd).
  pose proof (slot_unwritten a k t x Hnd Hk Hslot Hw) as Hnone.
  assert (Hanch : anchored k x h
                    (Some (Errorf_w msg_assign
                             (errorString (msg_mismatch (Some r) T x h))))
                    (Go_state a ctx sched h)).
  { apply (Go_anchored a ctx sched h k t x _ Hk Hnone).
    intros hx Hx. exists hx. rewrite Hbody.
    by rewrite (msg_mismatch_ext (Some r) T x hx h Hx). }
  destruct Hanch as [Hmem Hret].
  exists (msg_mismatch (Some r) T x h).
  split; [unfold msg_mismatch; cbn; apply prefix_nil|].
  split; [by apply assignResult_mismatch|].
  split.
  { intros h1. exists (msg_mismatch (Some r) T x h1).
    split; [unfold msg_mismatch; cbn; apply prefix_nil|].
    split; [by apply assignResult_mismatch|apply Hbody]. }
  split; [reflexivity|].
  split.
  { apply (Go_surfaces a ctx sched h k t _ Hk (bind_fails_fails t Hbf)).
    intros ret Hg. apply Hret. by right. }
  exists (first_error (map snd (order (Go_state a ctx sched h)))),
         (mem (Go_state a ctx sched h)).
  split; [apply Go_returns|]. split; [exact Hmem|].
  intros y Hy. by apply Go_frame.
Qed.

(** C7, nil result, as the code has it.  For a task of a batch of any size
    whose operation returns a nil value and no error, whatever its
    destination: the closure, when it finds the context not cancelled at
    its check point, returns nil and writes nothing, so that this unit
    reports no error to the errgroup.  When [Go] returns, under every
    context and schedule and whatever it returns, the slot of the task
    holds the value it had, as does every variable that no task of the
    batch stores into (slots being pairwise distinct).  [Go] returns nil
    when every other task succeeds as well and no goroutine finds the
    context cancelled at its check point: so it is when the context is
    never cancelled from outside, and when it is cancelled, or the timeout
    expires, only after every goroutine has passed its check point. *)
Theorem nil_result_tolerance a ctx sched h k t :
  funcs a !! k = Some t -> fun_ t tt = (None, None) ->
  (forall h1, task_body None t h1 = Returns None h1) /\
  (forall ret,
     pool (Go_state a ctx sched h) !! k = Some (Exited None ret) -> ret = None) /\
  (NoDup (omap slot (funcs a)) ->
   exists ret h',
     Go a ctx sched h = Returns ret h' /\
     (forall x, slot t = Some x -> h' !! x = h !! x) /\
     forall y, (forall t' w, t' ∈ funcs a -> writes t' <> Some (y, w)) ->
               h' !! y = h !! y) /\
  ((forall j t', j <> k -> funcs a !! j = Some t' -> quiet t') ->
   (unseen (Go_state a ctx sched h) ->
    Go a ctx sched h = Returns None (mem (Go_state a ctx sched h))) /\
   (never_cancelled a ctx sched ->
    Go a ctx sched h = Returns None (mem (Go_state a ctx sched h))) /\
   (forall pre rest,
      sched = pre ++ rest -> never_cancelled a ctx pre ->
      (forall i, i < length (funcs a) -> 2 <= turns i pre) ->
      Go a ctx sched h = Returns None (mem (Go_state a ctx sched h)))).
Proof.
  intros Hk Hf.
  assert (Hbody : forall h1, task_body None t h1 = Returns None h1).
  { intros h1. unfold task_body. rewrite Hf. cbn. unfold assign_and_return.
    by rewrite andb_false_r. }
  assert (Hquiet : quiet t).
  { split; rewrite Hf; cbn; [done|]. unfold bind_fails. by destruct (dest t). }
  assert (Hw : writes t = None).
  { unfold writes. rewrite Hf. cbn. by destruct (dest t). }
  split; [exact Hbody|]. split; [|split].
  - intros ret Hg.
    destruct (sound_follows _ _ (Go_state_sound a ctx sched h) _ _ _ Hk Hg)
      as (hx & hy & Hb).
    rewrite Hbody in Hb. congruence.
  - intros Hnd.
    exists (first_error (map snd (order (Go_state a ctx sched h)))),
           (mem (Go_state a ctx sched h)).
    split; [apply Go_returns|]. split.
    + intros x Hslot. apply Go_frame. by apply (slot_unwritten a k t x Hnd Hk Hslot Hw).
    + intros y Hy. by apply Go_frame.
  - intros Hothers.
    assert (Hq : forall t', t' ∈ funcs a -> quiet t').
    { intros t' Hin. apply list_elem_of_lookup_1 in Hin as [j Hj].
      destruct (decide (j = k)) as [->|Hne]; [|eauto].
      assert (t' = t) as -> by congruence. exact Hquiet. }
    split; [|split].
    + intros Hun. by apply Go_unseen.
    + intros Hnc. by apply Go_never_seen.
    + intros pre rest -> Hnc Hturns.
      assert (Hnc' : never_cancelled a ctx (pre ++ List.filter is_Run rest)).
      { destruct Hnc as (Hc & Hd & Hr). split; [exact Hc|]. split; [exact Hd|].
        rewrite forallb_app, Hr. cbn. apply forallb_forall.
        intros ev Hev. by apply List.filter_In in Hev as [_ Hev]. }
      pose proof (Go_filter_late a ctx pre rest h Hturns) as Heq.
      destruct (Go_never_seen a ctx _ h Hnc' Hq) as [_ HGo].
      rewrite Heq, HGo. rewrite Go_returns in Heq. rewrite HGo in Heq.
      congruence.
Qed.

End UnitProperties.

(* ===================================================================== *)
(** ** The further properties at the batches of the tests *)
(* ===================================================================== *)

Section MoreInstances.
Import Demo.

(** [assignResult(&result, 42)]: [result] becomes 42, [text] keeps its
    value, and assigning once more changes nothing. *)
Lemma assignResult_effect_witness :
  (@None error <> None -> <[1 := int 42]> vars = vars) /\
  (@None error = None ->
   exists v x r,
     Some (ref TInt 1) = Some v /\ Some (int 42) = Some r /\
     pointer_of (ptr v) = Some x /\
     <[1 := int 42]> vars !! x = Some (assignTo r (Elem_of (typ v))) /\
     (forall y, y <> x -> <[1 := int 42]> vars !! y = vars !! y) /\
     assignResult (Some (ref TInt 1)) (Some (int 42)) (<[1 := int 42]> vars) =
       Returns None (<[1 := int 42]> vars)).
Proof.
  apply (assignResult_effect (Some (ref TInt 1)) (Some (int 42)) vars None).
  reflexivity.
Defined.

(** The batch of [TestAsyncBasicFunctionality] with the timeout of
    [TestAsyncWithTimeout], whose timer does not fire. *)
Lemma timeout_without_effect_witness :
  Go (WithTimeout 50000000 basic) background [Run 0; Run 1] vars =
  Go basic background [Run 0; Run 1] vars.
Proof.
  apply timeout_without_effect; [reflexivity|lia|reflexivity].
Defined.

(** The caller cancels after both goroutines of
    [TestAsyncBasicFunctionality] passed their check points. *)
Lemma late_cancellation_ignored_witness :
  Go basic background
     ([Run 0; Run 0; Run 1; Run 1] ++ [ParentDone Canceled; Run 0]) vars =
  Go basic background
     ([Run 0; Run 0; Run 1; Run 1] ++ List.filter is_Run [ParentDone Canceled; Run 0]) vars.
Proof.
  apply late_cancellation_ignored.
  intros [|[|i]] Hi; [vm_compute; lia|vm_compute; lia|cbn in Hi; lia].
Defined.

(** The caller cancels while both operations of
    [TestAsyncBasicFunctionality] have returned and no goroutine has reached
    its check point. *)
Lemma cancellation_before_check_points_witness :
  Go basic background ([Run 0; Run 1] ++ ParentDone Canceled :: []) vars =
    Returns (Some (Errorf_w msg_cancelled Canceled)) vars.
Proof.
  apply cancellation_before_check_points.
  - discriminate.
  - apply demo_never_cancelled; reflexivity.
  - intros [|[|i]]; vm_compute; lia.
  - reflexivity.
Defined.

(** The first task of [two_failures], whose operation returns an error. *)
Lemma failure_is_reported_witness :
  exists e h', Go two_failures background [Run 1; Run 0] vars = Returns (Some e) h'.
Proof.
  apply (failure_is_reported two_failures background [Run 1; Run 0] vars 0
           (mkHolder (Some (ref TInt 1)) (returns None (Some test_error)))).
  - reflexivity.
  - left. discriminate.
Defined.

(** [TestAsyncBasicFunctionality]: [Go] returns nil, so both tasks went
    through and both values are in their slots. *)
Lemma success_means_all_done_witness :
  quiet (mkHolder (Some (ref TInt 1)) (returns (Some (int 42)) None)) /\
  pool (Go_state basic background [] vars) !! 0 = Some (Exited None None) /\
  (NoDup (omap slot (funcs basic)) ->
   forall x v,
     writes (mkHolder (Some (ref TInt 1)) (returns (Some (int 42)) None)) = Some (x, v) ->
     <[1 := int 42]> (<[2 := str "hello"]> vars) !! x = Some v).
Proof.
  apply (success_means_all_done basic background [] vars
           (<[1 := int 42]> (<[2 := str "hello"]> vars))).
  - vm_compute. reflexivity.
  - reflexivity.
Defined.

(** The first goroutine of [success_then_failure] passes its check point,
    the second task then fails, and the first stores 42 afterwards: 42 is
    in [result] when [Go] returns. *)
Lemma no_rollback_witness :
  exists err h',
    Go success_then_failure background
       [Run 0; Run 0; Run 1; Run 1; Run 1; Run 1; Run 0; Run 0] vars = Returns err h' /\
    h' !! 1 = Some (int 42).
Proof.
  apply (no_rollback success_then_failure background
           [Run 0; Run 0; Run 1; Run 1; Run 1; Run 1; Run 0; Run 0] vars 0
           (mkHolder (Some (ref TInt 1)) (returns (Some (int 42)) None)) None 1 (int 42)).
  - apply (bool_decide_unpack _). vm_compute. exact I.
  - reflexivity.
  - reflexivity.
  - reflexivity.
Defined.

(** The second task of [success_then_failure] fails before the first
    goroutine reaches its check point: [Go] returns "test error", not the
    cancellation that the first goroutine returned. *)
Lemma error_is_a_task_failure_witness :
  (exists k t,
     funcs success_then_failure !! k = Some t /\
     pool (Go_state success_then_failure background [Run 1; Run 1; Run 1; Run 1] vars) !! k =
       Some (Exited None (Some test_error)) /\
     ((bind_fails (dest t) (fun_ t tt).1 = false /\ (fun_ t tt).2 = Some test_error) \/
      (bind_fails (dest t) (fun_ t tt).1 = true /\
       exists assignErr, test_error = Errorf_w msg_assign assignErr))) /\
  (forall j c ret,
     pool (Go_state success_then_failure background [Run 1; Run 1; Run 1; Run 1] vars) !! j =
       Some (Exited (Some c) ret) ->
     c = Canceled /\ ret = Some (Errorf_w msg_cancelled Canceled)).
Proof.
  apply (error_is_a_task_failure success_then_failure background
           [Run 1; Run 1; Run 1; Run 1] vars test_error vars).
  - apply demo_never_cancelled; reflexivity.
  - reflexivity.
Defined.

(** [success_then_failure]: whatever the schedule, here one in which the
    goroutines alternate, [Go] returns the error of the second task. *)
Lemma single_failure_reported_witness :
  exists e h',
    Go success_then_failure background [Run 0; Run 1; Run 0; Run 1] vars =
      Returns (Some e) h' /\
    pool (Go_state success_then_failure background [Run 0; Run 1; Run 0; Run 1] vars) !! 1 =
      Some (Exited None (Some e)) /\
    ((bind_fails (Some (ref TString 2)) (returns None (Some test_error) tt).1 = false /\
      (returns None (Some test_error) tt).2 = Some e) \/
     (bind_fails (Some (ref TString 2)) (returns None (Some test_error) tt).1 = true /\
      exists assignErr, e = Errorf_w msg_assign assignErr)).
Proof.
  apply (single_failure_reported success_then_failure background
           [Run 0; Run 1; Run 0; Run 1] vars 1
           (mkHolder (Some (ref TString 2)) (returns None (Some test_error)))).
  - apply demo_never_cancelled; reflexivity.
  - reflexivity.
  - left. discriminate.
  - intros [|[|j]] t' Hne Ht'.
    + injection Ht' as <-. split; reflexivity.
    + done.
    + discriminate Ht'.
Defined.

(** [TestAsyncBasicFunctionality] under two schedules. *)
Lemma success_is_schedule_independent_witness :
  Go basic background [Run 0; Run 0; Run 0; Run 0] vars =
  Go basic background [Run 1; Run 0; Run 1] vars.
Proof.
  apply success_is_schedule_independent.
  - apply demo_never_cancelled; reflexivity.
  - apply demo_never_cancelled; reflexivity.
  - intros t Ht. apply elem_of_cons in Ht as [-> |Ht]; [split; reflexivity|].
    apply elem_of_cons in Ht as [-> |Ht]; [split; reflexivity|].
    by apply elem_of_nil in Ht.
  - apply (bool_decide_unpack _). vm_compute. exact I.
Defined.

End MoreInstances.

(* ===================================================================== *)
(** ** Timeout, validation, mismatch and nil results at concrete batches *)
(* ===================================================================== *)

Section UnitInstances.
Import Demo.

(** The batch of [TestAsyncWithTimeout], the timer firing while the
    operation sleeps. *)
Lemma timeout_deadline_exceeded_witness :
  Go with_timeout background [TimerFires; Run 0] vars =
    Returns (Some (Errorf_w msg_cancelled DeadlineExceeded)) vars /\
  Is (Errorf_w msg_cancelled DeadlineExceeded) DeadlineExceeded = true /\
  Is (Errorf_w msg_cancelled DeadlineExceeded) Canceled = false /\
  Is (Errorf_w msg_cancelled Canceled) DeadlineExceeded = false /\
  Is (Errorf_w msg_cancelled Canceled) Canceled = true /\
  forall (dst : any) (fn : AsyncFunc) e tmo ctx' sched' h1,
    fn tt = (None, Some e) ->
    never_cancelled (mkAsync [mkHolder dst fn] tmo) ctx' sched' ->
    Go (mkAsync [mkHolder dst fn] tmo) ctx' sched' h1 = Returns (Some e) h1.
Proof.
  apply timeout_deadline_exceeded.
  - discriminate.
  - split; [reflexivity|]. exists 50000000%Z. split; [reflexivity|].
    right. exists [Run 0]. reflexivity.
Defined.

(** The batch of [TestAsyncWithTimeout], a sole task with a timeout of
    50ms whose deadline passes before the operation is back, called with a
    context that the caller has cancelled: [Go] returns the error that
    wraps [context.Canceled], for which [errors.Is(err,
    context.DeadlineExceeded)] is false.  And the batch without timeout of
    an operation that fails with [context.DeadlineExceeded] of its own:
    [Go] returns that error as it is, classified as deadline exceeded
    although no timeout of the batch expired. *)
Lemma timeout_counterexample :
  timeout with_timeout = Some 50000000%Z /\
  funcs with_timeout =
    [mkHolder (Some (ref TInt 1)) (returns (Some (int 42)) None)] /\
  Go with_timeout cancelled [TimerFires; Run 0] vars =
    Returns (Some (Errorf_w msg_cancelled Canceled)) vars /\
  Is (Errorf_w msg_cancelled Canceled) DeadlineExceeded = false /\
  timeout deadline_op = None /\
  Go deadline_op background [] vars = Returns (Some DeadlineExceeded) vars /\
  Is DeadlineExceeded DeadlineExceeded = true.
Proof. repeat split; reflexivity. Qed.

(** A nil pointer as destination in a batch of two tasks whose other task
    succeeds, and the batch of [TestAsyncNonPointerDest]. *)
Lemma destination_validation_witness :
  Go nil_pointer_then_value background [Run 1; Run 0] vars =
    Returns (Some (Errorf_w "failed to assign result: "
               (errorString "destination pointer cannot be nil")))
            (mem (Go_state nil_pointer_then_value background [Run 1; Run 0] vars)) /\
  exists msg,
    String.prefix "destination must be a pointer" msg = true /\
    Go non_pointer background [] vars =
      Returns (Some (Errorf_w "failed to assign result: " (errorString msg)))
              (mem (Go_state non_pointer background [] vars)).
Proof.
  split.
  - destruct (destination_validation nil_pointer_then_value background [Run 1; Run 0]
                vars 0 (mkHolder (Some (nilptr TInt)) (returns (Some (int 42)) None))
                (nilptr TInt) (int 42) None eq_refl eq_refl eq_refl) as [Hnil _].
    destruct (Hnil eq_refl eq_refl) as (_ & _ & Hsurf).
    destruct Hsurf as (_ & _ & Hq). apply Hq.
    + intros [|[|j]] t' Hne Ht'.
      * done.
      * injection Ht' as <-. split; reflexivity.
      * discriminate Ht'.
    + apply demo_never_cancelled; reflexivity.
  - destruct (destination_validation non_pointer background [] vars 0
                (mkHolder (Some (int 0)) (returns (Some (int 42)) None))
                (int 0) (int 42) None eq_refl eq_refl eq_refl) as [_ Hnp].
    destruct (Hnp ltac:(discriminate)) as (msg & Hpre & _ & _ & Hsurf).
    exists msg. split; [exact Hpre|].
    destruct Hsurf as (_ & _ & Hq). apply Hq.
    + intros [|j] t' Hne Ht'; [done|discriminate Ht'].
    + apply demo_never_cancelled; reflexivity.
Defined.

(** An [int] for a [string] slot in a batch of two tasks whose other task
    succeeds: [Go] returns the wrapped mismatch and [text] is as it was. *)
Lemma type_mismatch_atomic_witness :
  exists msg,
    String.prefix "type mismatch: cannot assign " msg = true /\
    Go value_then_mismatch background [Run 0; Run 1; Run 1; Run 0] vars =
      Returns (Some (Errorf_w "failed to assign result: " (errorString msg)))
              (mem (Go_state value_then_mismatch background
                      [Run 0; Run 1; Run 1; Run 0] vars)) /\
    exists ret h',
      Go value_then_mismatch background [Run 0; Run 1; Run 1; Run 0] vars =
        Returns ret h' /\
      h' !! 2 = vars !! 2.
Proof.
  destruct (type_mismatch_atomic value_then_mismatch background
              [Run 0; Run 1; Run 1; Run 0] vars 1
              (mkHolder (Some (ref TString 2)) (returns (Some (int 42)) None))
              (ref TString 2) (int 42) None 2
              eq_refl eq_refl eq_refl eq_refl eq_refl eq_refl)
    as (msg & Hpre & _ & _ & _ & Hsurf & ret & h' & HGo & Hx & _).
  { apply (bool_decide_unpack _). vm_compute. exact I. }
  exists msg. split; [exact Hpre|]. split.
  - destruct Hsurf as (_ & _ & Hq). apply Hq.
    + intros [|[|j]] t' Hne Ht'.
      * injection Ht' as <-. split; reflexivity.
      * done.
      * discriminate Ht'.
    + apply demo_never_cancelled; reflexivity.
  - exists ret, h'. split; [exact HGo|exact Hx].
Defined.

(** The batch [two_failures]: the goroutine of the second task passes its
    check point, the first task then fails, and the second goroutine comes
    to its binding afterwards.  The operation of the second task returns an
    [int] for a [string] slot without error and its closure returns the
    wrapped mismatch; yet [Go] returns "test error", the error of the
    operation of the first task, which is no binding error. *)
Lemma type_mismatch_counterexample :
  funcs two_failures !! 1 =
    Some (mkHolder (Some (ref TString 2)) (returns (Some (int 42)) None)) /\
  AssignableTo (typ (int 42)) (Elem_of (typ (ref TString 2))) = false /\
  pool (Go_state two_failures background
          [Run 1; Run 1; Run 0; Run 0; Run 0; Run 0; Run 1; Run 1] vars) !! 1 =
    Some (Exited None
            (Some (Errorf_w "failed to assign result: "
                     (errorString "type mismatch: cannot assign int to string")))) /\
  Go two_failures background
     [Run 1; Run 1; Run 0; Run 0; Run 0; Run 0; Run 1; Run 1] vars =
    Returns (Some test_error) vars /\
  Unwrap test_error = None /\
  forall msg, test_error <> Errorf_w "failed to assign result: " (errorString msg).
Proof.
  repeat split; try reflexivity.
  intros msg Hm. discriminate Hm.
Qed.

(** A task that produces nothing in a batch of two tasks whose other task
    succeeds, the caller cancelling after both goroutines have passed their
    check points: [Go] returns nil and [result] is as it was. *)
Lemma nil_result_tolerance_witness :
  Go nil_then_value background
     ([Run 0; Run 0; Run 1; Run 1] ++ [ParentDone Canceled; Run 1]) vars =
    Returns None
      (mem (Go_state nil_then_value background
              ([Run 0; Run 0; Run 1; Run 1] ++ [ParentDone Canceled; Run 1]) vars)) /\
  exists ret h',
    Go nil_then_value background
       ([Run 0; Run 0; Run 1; Run 1] ++ [ParentDone Canceled; Run 1]) vars =
      Returns ret h' /\
    h' !! 1 = vars !! 1.
Proof.
  destruct (nil_result_tolerance nil_then_value background
              ([Run 0; Run 0; Run 1; Run 1] ++ [ParentDone Canceled; Run 1]) vars 0
              (mkHolder (Some (ref TInt 1)) (returns None None)) eq_refl eq_refl)
    as (_ & _ & Hslot & HGo).
  split.
  - destruct HGo as (_ & _ & Hlate).
    + intros [|[|j]] t' Hne Ht'.
      * done.
      * injection Ht' as <-. split; reflexivity.
      * discriminate Ht'.
    + apply (Hlate [Run 0; Run 0; Run 1; Run 1] [ParentDone Canceled; Run 1] eq_refl).
      * apply demo_never_cancelled; reflexivity.
      * intros [|[|i]] Hi; [vm_compute; lia|vm_compute; lia|cbn in Hi; lia].
  - destruct Hslot as (ret & h' & HG & Hx & _).
    { apply (bool_decide_unpack _). vm_compute. exact I. }
    exists ret, h'. split; [exact HG|]. apply Hx. reflexivity.
Defined.

(** The batch [nil_then_failure], never cancelled from outside, its first
    goroutine running to its end before the second starts.  The operation
    of the first task returns a nil value and no error, its goroutine found
    the context not cancelled and returned nil; yet [Go] does not return
    nil: it returns "test error", the error of the second task. *)
Lemma nil_result_counterexample :
  funcs nil_then_failure !! 0 =
    Some (mkHolder (Some (ref TInt 1)) (returns None None)) /\
  returns None None tt = (None, None) /\
  pool (Go_state nil_then_failure background [Run 0; Run 0; Run 0; Run 0] vars) !! 0 =
    Some (Exited None None) /\
  Go nil_then_failure background [Run 0; Run 0; Run 0; Run 0] vars =
    Returns (Some test_error) vars /\
  ~ (exists h',
       Go nil_then_failure background [Run 0; Run 0; Run 0; Run 0] vars =
       Returns None h').
Proof.
  repeat split; try reflexivity.
  intros [h' Hgo]. vm_compute in Hgo. discriminate Hgo.
Qed.

(** [TestAsyncBasicFunctionality]: after [Go], [result] and [text] hold
    what they held or what the task that targets them produced. *)
Lemma variables_come_from_tasks_witness :
  exists err h',
    Go basic background [Run 1; Run 0] vars = Returns err h' /\
    forall y,
      h' !! y = vars !! y \/
      exists t v, t ∈ funcs basic /\ writes t = Some (y, v) /\ h' !! y = Some v.
Proof.
  apply variables_come_from_tasks.
  apply (bool_decide_unpack _). vm_compute. exact I.
Defined.

End UnitInstances.
